(** * pysces / bempy: rigid-body kinematics and vortex-panel geometry

    A shallow embedding of [bempy.py].  NumPy floating-point scalars are
    idealised as real numbers ([R]); the only place where IEEE special
    values matter (the division that normalises the panel normals) is
    modelled with an explicit NaN / infinity result.  Python objects that are
    shared by reference (bodies and their decorators) live in an explicit
    heap; everything else is a pure function of its arguments.

    The source is Python 2 code: [self._numpanels / 2] on integers is floor
    division. *)

From Stdlib Require Import Reals Lra Lia ZArith List String Ascii.
From stdpp Require Import base option list.
Import ListNotations.

Open Scope R_scope.

(* ================================================================== *)
(** * Definitions *)
(* ================================================================== *)

(** ** Small pieces of NumPy on 2-vectors and 2x2 matrices *)

Definition vec2 : Type := R * R.
Definition mat2 : Type := vec2 * vec2.   (* two rows *)

(** [np.dot(M, v)] for a 2x2 matrix and a vector of length 2. *)
Definition dot (M : mat2) (v : vec2) : vec2 :=
  (fst (fst M) * fst v + snd (fst M) * snd v,
   fst (snd M) * fst v + snd (snd M) * snd v).

(** [M.T] *)
Definition transpose (M : mat2) : mat2 :=
  ((fst (fst M), fst (snd M)), (snd (fst M), snd (snd M))).

(** [np.dot(M, N)] for two 2x2 matrices. *)
Definition matmul (M N : mat2) : mat2 :=
  ((fst (fst M) * fst (fst N) + snd (fst M) * fst (snd N),
    fst (fst M) * snd (fst N) + snd (fst M) * snd (snd N)),
   (fst (snd M) * fst (fst N) + snd (snd M) * fst (snd N),
    fst (snd M) * snd (fst N) + snd (snd M) * snd (snd N))).

Definition vadd (u v : vec2) : vec2 := (fst u + fst v, snd u + snd v).
Definition vopp (v : vec2) : vec2 := (- fst v, - snd v).
Definition vscale (v : vec2) (k : R) : vec2 := (fst v * k, snd v * k).

(** ** class EuclideanTransformation *)

Module EuclideanTransformation.

Record t : Type := Build {
  _angle : R;
  _R : mat2;
  _displacement : vec2
}.

(** The matrix the [angle] setter stores:
    [[cos th, sin th], [-sin th, cos th]] with [th = value * pi / 180]. *)
Definition rotation_of (value : R) : mat2 :=
  let th := value * PI / 180 in
  ((cos th, sin th), (- sin th, cos th)).

(** [angle] property: getter and setter. *)
Definition angle (self : t) : R := _angle self.

Definition set_angle (self : t) (value : R) : t :=
  {| _angle := value;
     _R := rotation_of value;
     _displacement := _displacement self |}.

(** [displacement] property: getter and setter. *)
Definition displacement (self : t) : vec2 := _displacement self.

Definition set_displacement (self : t) (value : vec2) : t :=
  {| _angle := _angle self; _R := _R self; _displacement := value |}.

(** [__init__(self, angle, displacement)]: both setters, in that order. *)
Definition init (angle0 : R) (displacement0 : vec2) : t :=
  {| _angle := angle0;
     _R := rotation_of angle0;
     _displacement := displacement0 |}.

(** [inverse(self)] *)
Definition inverse (self : t) : t :=
  init (- _angle self) (vopp (dot (transpose (_R self)) (_displacement self))).

(** [compose(self, other)]; [other] is [None] when the parent is a root
    body, whose [get_transformation] returns [None]. *)
Definition compose (self : t) (other : option t) : t :=
  match other with
  | None => self
  | Some o =>
      let angle1 := angle self + angle o in
      let displacement1 :=
        vadd (dot (_R self) (displacement o)) (_displacement self) in
      init angle1 displacement1
  end.

End EuclideanTransformation.

Module ET := EuclideanTransformation.

(** ** The object store

    [Body] instances (and the [Circle] / [Airfoil] subclasses, which inherit
    [time], [get_body] and [get_transformation] unchanged) and
    [TransformedBody] instances (with the [Pitching] / [Heaving] subclasses)
    are Python objects held by reference.  The store is a list of objects;
    a reference is an index, and a new object is appended at the end. *)

Abbreviation loc := nat.

(** Which class a decorator is, with the extra attributes its [__init__]
    stores.  [_phase] is already in radians. *)
Inductive motion : Type :=
| Plain
| Pitching (_amplitude _frequency _phase : R)
| Heaving (_displacement : vec2) (_frequency _phase : R).

Inductive object : Type :=
| Body (_time : R)
| TransformedBody (_parent _body : loc) (_transformation : ET.t)
    (cls : motion).

Definition alloc (h : list object) (o : object) : list object * loc :=
  (h ++ [o], length h).

(** [Body.__init__]: [self._time = 0]. *)
Definition Body_init (h : list object) : list object * loc :=
  alloc h (Body 0).

(** [get_body]: [Body] returns [self], [TransformedBody] returns
    [self._body]. *)
Definition get_body (h : list object) (l : loc) : option loc :=
  match h !! l with
  | Some (Body _) => Some l
  | Some (TransformedBody _ b _ _) => Some b
  | None => None
  end.

(** [TransformedBody.__init__(self, body, angle, displacement)]:
    [_parent = body], [_body = body.get_body()], and a fresh
    transformation.  [cls] records the subclass being constructed. *)
Definition decorate (h : list object) (body : loc) (angle : R)
    (displacement : vec2) (cls : motion) : option (list object * loc) :=
  b ← get_body h body;
  Some (alloc h (TransformedBody body b (ET.init angle displacement) cls)).

Definition TransformedBody_init (h : list object) (body : loc) (angle : R)
    (displacement : vec2) : option (list object * loc) :=
  decorate h body angle displacement Plain.

(** [Pitching.__init__(self, body, amplitude, frequency, phase)]:
    [super().__init__(body)], then the three attributes, the phase
    converted to radians. *)
Definition Pitching_init (h : list object) (body : loc)
    (amplitude frequency phase : R) : option (list object * loc) :=
  decorate h body 0 (0, 0) (Pitching amplitude frequency (phase * PI / 180)).

(** [Heaving.__init__(self, body, displacement, frequency, phase)] *)
Definition Heaving_init (h : list object) (body : loc)
    (displacement : vec2) (frequency phase : R)
    : option (list object * loc) :=
  decorate h body 0 (0, 0) (Heaving displacement frequency (phase * PI / 180)).

(** The [time] property.  On a [Body] it reads [_time]; on a
    [TransformedBody] it is [self._body.time], again a property look-up on
    whatever [_body] refers to, hence the recursion (bounded by [fuel]). *)
Fixpoint time (fuel : nat) (h : list object) (l : loc) : option R :=
  match fuel with
  | O => None
  | S f =>
      match h !! l with
      | Some (Body t) => Some t
      | Some (TransformedBody _ b _ _) => time f h b
      | None => None
      end
  end.

(** The [time] setter: [self._time = value] on a [Body],
    [self._body.time = value] on a [TransformedBody]. *)
Fixpoint set_time (fuel : nat) (h : list object) (l : loc) (value : R)
    : option (list object) :=
  match fuel with
  | O => None
  | S f =>
      match h !! l with
      | Some (Body _) => Some (<[l := Body value]> h)
      | Some (TransformedBody _ b _ _) => set_time f h b value
      | None => None
      end
  end.

(** [TransformedBody.angle] and [TransformedBody.displacement]: getters and
    setters that go through [self._transformation]. *)
Definition transformation_of (h : list object) (l : loc) : option ET.t :=
  match h !! l with
  | Some (TransformedBody _ _ tr _) => Some tr
  | _ => None
  end.

Definition angle (h : list object) (l : loc) : option R :=
  ET.angle <$> transformation_of h l.

Definition displacement (h : list object) (l : loc) : option vec2 :=
  ET.displacement <$> transformation_of h l.

Definition set_angle (h : list object) (l : loc) (value : R)
    : option (list object) :=
  match h !! l with
  | Some (TransformedBody p b tr cls) =>
      Some (<[l := TransformedBody p b (ET.set_angle tr value) cls]> h)
  | _ => None
  end.

Definition set_displacement (h : list object) (l : loc) (value : vec2)
    : option (list object) :=
  match h !! l with
  | Some (TransformedBody p b tr cls) =>
      Some (<[l := TransformedBody p b (ET.set_displacement tr value) cls]> h)
  | _ => None
  end.

(** [get_transformation].  A [Body] returns [None].  A [TransformedBody]
    returns [self._transformation.compose(self._parent.get_transformation())];
    [Pitching] and [Heaving] first assign their own angle / displacement
    from the current time.  The call may update the store (those
    assignments, in this object and in its ancestors), so the store is
    threaded through. *)
Fixpoint get_transformation (fuel : nat) (h : list object) (l : loc)
    : option (list object * option ET.t) :=
  match fuel with
  | O => None
  | S f =>
      match h !! l with
      | None => None
      | Some (Body _) => Some (h, None)
      | Some (TransformedBody p _ _ cls) =>
          h1 ← match cls with
               | Plain => Some h
               | Pitching a w ph =>
                   t ← time f h l;
                   set_angle h l (a * sin (w * t + ph))
               | Heaving d w ph =>
                   t ← time f h l;
                   set_displacement h l (vscale d (sin (w * t + ph)))
               end;
          '(h2, other) ← get_transformation f h1 p;
          tr ← transformation_of h2 l;
          Some (h2, Some (ET.compose tr other))
      end
  end.

(** A sequence of assignments [obj.time = value]. *)
Fixpoint write_times (fuel : nat) (h : list object) (ws : list (loc * R))
    : option (list object) :=
  match ws with
  | [] => Some h
  | (l, v) :: ws' => h1 ← set_time fuel h l v; write_times fuel h1 ws'
  end.

(** Stores that a program can build: objects are only created by the
    constructors and only changed through the properties and
    [get_transformation]. *)
Inductive reachable : list object -> Prop :=
| reach_empty : reachable []
| reach_Body h :
    reachable h -> reachable (fst (Body_init h))
| reach_decorate h body a d cls h' l :
    reachable h -> decorate h body a d cls = Some (h', l) -> reachable h'
| reach_set_time h fuel l v h' :
    reachable h -> set_time fuel h l v = Some h' -> reachable h'
| reach_set_angle h l v h' :
    reachable h -> set_angle h l v = Some h' -> reachable h'
| reach_set_displacement h l v h' :
    reachable h -> set_displacement h l v = Some h' -> reachable h'
| reach_get_transformation h fuel l h' r :
    reachable h -> get_transformation fuel h l = Some (h', r) -> reachable h'.

(** [in_chain h root l]: following [_parent] references from [l] ends at
    the [Body] [root]. *)
Inductive in_chain (h : list object) (root : loc) : loc -> Prop :=
| chain_root t :
    h !! root = Some (Body t) -> in_chain h root root
| chain_decorator l p b tr cls :
    h !! l = Some (TransformedBody p b tr cls) ->
    in_chain h root p -> in_chain h root l.

(** The invariant the constructors establish: a decorator is created after
    its parent, its [_body] is what its parent's [get_body] returns, and that
    is a [Body]. *)
Definition wf (h : list object) : Prop :=
  forall l p b tr cls,
    h !! l = Some (TransformedBody p b tr cls) ->
    (p < l)%nat /\ get_body h p = Some b /\ exists t, h !! b = Some (Body t).

(** An object with its transformation forgotten: what assignments to
    [angle] and [displacement] cannot change. *)
Definition skel (o : object) : object :=
  match o with
  | Body t => Body t
  | TransformedBody p b _ cls => TransformedBody p b (ET.init 0 (0, 0)) cls
  end.

(** A small chain used as a running example:
    [TransformedBody(Heaving(Pitching(Body(), 2, 3), (1, 0), 1), 10, (-0.25, 0))]. *)
Definition example_chain : list object :=
  [ Body 0;
    TransformedBody 0 0 (ET.init 0 (0, 0)) (Pitching 2 3 (0 * PI / 180));
    TransformedBody 1 0 (ET.init 0 (0, 0)) (Heaving (1, 0) 1 (0 * PI / 180));
    TransformedBody 2 0 (ET.init 10 (-0.25, 0)) Plain ].

(** ** Exceptions *)

Inductive exn : Type :=
| ValueError (msg : string).

Inductive result (A : Type) : Type :=
| Ok (a : A)
| Raise (e : exn).
Arguments Ok {A} a.
Arguments Raise {A} e.

(** ** NumPy on rows of numbers

    A 2 x n array is a pair of rows. *)

(** [np.vstack([x, y])] of two 1-d arrays: they must have the same length. *)
Definition vstack (x y : list R) : result (list R * list R) :=
  if (length x =? length y)%nat then Ok (x, y)
  else Raise (ValueError "all the input array dimensions except for the concatenation axis must match exactly").

(** [np.diff(a)] along a row: [out[i] = a[i+1] - a[i]]. *)
Definition diff (a : list R) : list R := zip_with Rminus (tail a) a.

(** [a[:-1]] *)
Definition but_last (a : list R) : list R := take (length a - 1) a.

(** [a + k * d], element by element. *)
Definition add_scaled (a : list R) (k : R) (d : list R) : list R :=
  zip_with (fun ai di => ai + k * di) a d.

(** One column of [np.linalg.norm(dq, axis=0)]. *)
Definition norm2 (dx dy : R) : R := sqrt (dx * dx + dy * dy).

(** The value of a floating-point division of arrays.  NumPy does not raise
    on a zero divisor: it yields NaN for 0/0 and an infinity otherwise (and
    emits a warning). *)
Inductive npfloat : Type :=
| Finite (r : R)
| PosInf
| NegInf
| NaN.

Definition np_divide (x n : R) : npfloat :=
  if Req_dec_T n 0 then
    if Req_dec_T x 0 then NaN
    else if Rlt_dec 0 x then PosInf else NegInf
  else Finite (x / n).

(** ** class BoundVortexPanels *)

Module BoundVortexPanels.

Record t : Type := Build {
  _numpanels : nat;
  _normals : list npfloat * list npfloat;
  _xvort : list R * list R;
  _xcoll : list R * list R;
  _gam : list R
}.

(** [__init__(self, body)], as a function of
    [x, y = body.get_points(body_frame=True)]. *)
Definition init (x y : list R) : result t :=
  match vstack x y with
  | Raise e => Raise e
  | Ok q =>
      let dq := (diff (fst q), diff (snd q)) in
      let numpanels := length (fst dq) in
      let norm := zip_with norm2 (fst dq) (snd dq) in
      let normals :=
        (zip_with np_divide (snd dq) norm,
         zip_with np_divide (Ropp <$> fst dq) norm) in
      let q25 := (add_scaled (but_last (fst q)) 0.25 (fst dq),
                  add_scaled (but_last (snd q)) 0.25 (snd dq)) in
      let q75 := (add_scaled (but_last (fst q)) 0.75 (fst dq),
                  add_scaled (but_last (snd q)) 0.75 (snd dq)) in
      let half := (numpanels / 2)%nat in
      Ok {| _numpanels := numpanels;
            _normals := normals;
            _xvort := (take half (fst q75) ++ drop half (fst q25),
                       take half (snd q75) ++ drop half (snd q25));
            _xcoll := (take half (fst q25) ++ drop half (fst q75),
                       take half (snd q25) ++ drop half (snd q75));
            _gam := replicate numpanels 0 |}
  end.

(** The [vortices], [collocation_pts] and [normals] properties, read at one
    panel. *)
Definition vortex (self : t) (i : nat) : option vec2 :=
  vx ← fst (_xvort self) !! i; vy ← snd (_xvort self) !! i; Some (vx, vy).

Definition collocation_pt (self : t) (i : nat) : option vec2 :=
  cx ← fst (_xcoll self) !! i; cy ← snd (_xcoll self) !! i; Some (cx, cy).

Definition normal (self : t) (i : nat) : option (npfloat * npfloat) :=
  nx ← fst (_normals self) !! i; ny ← snd (_normals self) !! i; Some (nx, ny).

End BoundVortexPanels.

Module BVP := BoundVortexPanels.

(** The point at fraction [k] of the edge from [a] to [b]. *)
Definition along (k : R) (a b : vec2) : vec2 :=
  (fst a + k * (fst b - fst a), snd a + k * (snd b - snd a)).

(** ** Python's integer formatting and parsing, as far as [Airfoil] uses
    them *)

Definition digit_char (d : Z) : ascii := ascii_of_nat (48 + Z.to_nat d).

Definition is_digit (c : ascii) : bool :=
  (48 <=? nat_of_ascii c)%nat && (nat_of_ascii c <=? 57)%nat.

Definition digit_value (c : ascii) : Z := Z.of_nat (nat_of_ascii c - 48).

(** The decimal digits of [n >= 0], most significant first, put in front
    of [acc]. *)
Fixpoint digits_aux (fuel : nat) (n : Z) (acc : string) : string :=
  match fuel with
  | O => acc
  | S f =>
      let acc' := String (digit_char (n mod 10)) acc in
      if (n / 10 =? 0)%Z then acc' else digits_aux f (n / 10) acc'
  end.

Definition decimal (n : Z) : string := digits_aux (S (Z.to_nat n)) n "".

Fixpoint zeros (k : nat) (s : string) : string :=
  match k with
  | O => s
  | S k' => String "0" (zeros k' s)
  end.

(** ["%04d" % n]: at least 4 characters, zeros between the sign and the
    digits. *)
Definition format_04d (n : Z) : string :=
  if (n <? 0)%Z then
    let d := decimal (- n) in String "-" (zeros (3 - String.length d) d)
  else
    let d := decimal n in zeros (4 - String.length d) d.

Fixpoint all_digits (s : string) : bool :=
  match s with
  | EmptyString => true
  | String c s' => is_digit c && all_digits s'
  end.

Fixpoint digits_value (acc : Z) (s : string) : Z :=
  match s with
  | EmptyString => acc
  | String c s' => digits_value (10 * acc + digit_value c) s'
  end.

(** [int(s)] for a string [s] made of the characters [0-9] and [-] (the
    only ones [format_04d] produces): an optional sign and at least one
    digit, anything else is a [ValueError]. *)
Definition py_int (s : string) : result Z :=
  let unsigned (d : string) : option Z :=
    match d with
    | EmptyString => None
    | _ => if all_digits d then Some (digits_value 0 d) else None
    end in
  let r := match s with
           | String c d =>
               if Ascii.eqb c "-" then Z.opp <$> unsigned d else unsigned s
           | EmptyString => None
           end in
  match r with
  | Some z => Ok z
  | None => Raise (ValueError "invalid literal for int() with base 10")
  end.

(** ** More NumPy *)

(** [np.linspace(start, stop, num)] *)
Definition linspace (start stop : R) (num : nat) : list R :=
  match num with
  | O => []
  | 1%nat => [start]
  | _ => (fun i => start + INR i * ((stop - start) / INR (num - 1)))
           <$> seq 0 num
  end.

(** [np.polyval(coefs, x)], highest degree first. *)
Definition polyval (coefs : list R) (x : R) : R :=
  fold_left (fun acc c => acc * x + c) coefs 0.

(** [a[-1:0:-1]]: from the last element down to the one at index 1. *)
Definition from_last_down_to_1 (a : list R) : list R := reverse (tail a).

(** ** class Airfoil *)

Module Airfoil.

Record t : Type := Build {
  _time : R;
  _x : list R;
  _y : list R
}.

(** The chordwise stations [x]. *)
Definition stations (uniform : bool) (num_points : nat) : list R :=
  if uniform then linspace 0 1 num_points
  else (fun theta => 1 - cos theta) <$> linspace 0 (0.5 * PI) num_points.

Definition coefs (zero_thick_te : bool) : list R :=
  [ (if zero_thick_te then -0.1036 else -0.1015);
    0.2843; -0.3516; -0.1260; 0; 0.2969 ].

(** One element of [y_thick]. *)
Definition y_thick (thickness : R) (zero_thick_te : bool) (x : R) : R :=
  5 * thickness * (polyval (take 5 (coefs zero_thick_te)) x
                   + nth 5 (coefs zero_thick_te) 0 * sqrt x).

(** One element of [y_camber]: zero unless [p] is non-zero; then the
    [front] formula where [x <= p] and the [back] formula where [x > p]. *)
Definition y_camber (max_camber p : R) (x : R) : R :=
  if Req_dec_T p 0 then 0
  else if Rle_dec x p then max_camber * x / p ^ 2 * (2 * p - x)
  else max_camber * ((1 - x) / (1 - p) ^ 2 * (1 + x - 2 * p)).

(** The second part of [__init__]: stations, thickness, camber and the
    two stacked rows, from the three parameters decoded from the code. *)
Definition geometry (max_camber p thickness : R) (num_points : nat)
    (zero_thick_te uniform : bool) : t :=
  let x := stations uniform num_points in
  let yt := y_thick thickness zero_thick_te <$> x in
  let yc := y_camber max_camber p <$> x in
  {| _time := 0;
     _x := from_last_down_to_1 x ++ x;
     _y := zip_with Rplus (from_last_down_to_1 yc) (from_last_down_to_1 yt)
           ++ zip_with Rminus yc yt |}.

(** [__init__(self, code, num_points, zero_thick_te, uniform)]; [code] is
    the integer [int(code)]. *)
Definition init (code : Z) (num_points : nat) (zero_thick_te uniform : bool)
    : result t :=
  let code_str := format_04d code in
  if negb (String.length code_str =? 4)%nat then
    Raise (ValueError "NACA designation is more than 4 digits")
  else
    match py_int (substring 0 1 code_str) with
    | Raise e => Raise e
    | Ok d0 =>
    let max_camber := 0.01 * IZR d0 in
    match py_int (substring 1 1 code_str) with
    | Raise e => Raise e
    | Ok d1 =>
    let p := 0.1 * IZR d1 in
    match py_int (substring 2 (String.length code_str - 2) code_str) with
    | Raise e => Raise e
    | Ok d23 =>
    let thickness := 0.01 * IZR d23 in
    Ok (geometry max_camber p thickness num_points zero_thick_te uniform)
    end end end.

(** [get_points] *)
Definition get_points (self : t) : list R * list R := (_x self, _y self).

End Airfoil.

(** Element [i] of [Airfoil.stations uniform N], in closed form. *)
Definition station (uniform : bool) (N i : nat) : R :=
  if uniform then 0 + INR i * ((1 - 0) / INR (N - 1))
  else 1 - cos (0 + INR i * ((0.5 * PI - 0) / INR (N - 1))).

(** ** More of class EuclideanTransformation *)

(** The invariant of the class: [_R] is the matrix of [_angle]. *)
Definition consistent (T : ET.t) : Prop :=
  ET._R T = ET.rotation_of (ET._angle T).

(** The argument of [xform_position]: an array of length 2, or a 2-d array
    with 2 rows, given by its columns. *)
Inductive points : Type :=
| Vector (v : vec2)
| Columns (cols : list vec2).

(** [self._displacement.any()] *)
Definition any2 (v : vec2) : bool :=
  if Req_dec_T (fst v) 0 then (if Req_dec_T (snd v) 0 then false else true)
  else true.

(** [xform_position(self, vector)]: the rotation is applied only if
    [self._angle] is non-zero, the displacement only if one of its
    components is. *)
Definition xform_position (self : ET.t) (vector : points) : points :=
  let newvector := vector in
  let newvector :=
    if Req_dec_T (ET._angle self) 0 then newvector
    else match newvector with
         | Vector v => Vector (dot (ET._R self) v)
         | Columns cols => Columns (dot (ET._R self) <$> cols)
         end in
  if any2 (ET._displacement self) then
    match newvector with
    | Vector v => Vector (vadd v (ET._displacement self))
    | Columns cols =>
        Columns ((fun c => vadd c (ET._displacement self)) <$> cols)
    end
  else newvector.

(** The rigid motion a transformation stands for. *)
Definition rigid (T : ET.t) (v : vec2) : vec2 :=
  vadd (dot (ET._R T) v) (ET._displacement T).

(** Every decorator of the store satisfies the class invariant of its
    transformation. *)
Definition all_consistent (h : list object) : Prop :=
  forall l p b tr cls,
    h !! l = Some (TransformedBody p b tr cls) -> consistent tr.

(** ** Boundary points through the store

    [shapes l] is the pair [(_x, _y)] of the [Circle] or [Airfoil] at
    reference [l]; these attributes are assigned once, in [__init__], and
    the plain [Body] class has no [get_points] ([shapes l = None]). *)

(** [get_points]: [Circle] and [Airfoil] return [(_x, _y)] whatever the
    keyword arguments; [TransformedBody.get_points(body_frame)] first calls
    [self._body.get_points()] and, unless [body_frame] is set, maps the
    stacked points with [self.get_transformation()]. *)
Fixpoint get_points (shapes : loc -> option (list R * list R)) (fuel : nat)
    (h : list object) (l : loc) (body_frame : bool)
    : option (list object * result (list R * list R)) :=
  match fuel with
  | O => None
  | S f =>
      match h !! l with
      | None => None
      | Some (Body _) => pts ← shapes l; Some (h, Ok pts)
      | Some (TransformedBody _ b _ _) =>
          '(h1, r) ← get_points shapes f h b false;
          match r with
          | Raise e => Some (h1, Raise e)
          | Ok (x, y) =>
              if body_frame then Some (h1, Ok (x, y))
              else
                '(h2, T) ← get_transformation f h1 l;
                T ← T;
                match vstack x y with
                | Raise e => Some (h2, Raise e)
                | Ok q =>
                    match xform_position T (Columns (zip (fst q) (snd q)))
                    with
                    | Columns cols =>
                        Some (h2, Ok (fst <$> cols, snd <$> cols))
                    | Vector _ => None
                    end
                end
          end
      end
  end.

(** [BoundVortexPanels(body)] for a body in the store:
    [x, y = body.get_points(body_frame=True)], then the arrays. *)
Definition BoundVortexPanels_init (shapes : loc -> option (list R * list R))
    (fuel : nat) (h : list object) (body : loc)
    : option (list object * result BVP.t) :=
  '(h1, r) ← get_points shapes fuel h body true;
  Some (h1, match r with
            | Ok (x, y) => BVP.init x y
            | Raise e => Raise e
            end).

(** The sum of the angles of the decorators from [l] down to the root. *)
Inductive chain_angle (h : list object) : loc -> R -> Prop :=
| chain_angle_Body l t :
    h !! l = Some (Body t) -> chain_angle h l 0
| chain_angle_TransformedBody l p b tr cls s :
    h !! l = Some (TransformedBody p b tr cls) ->
    chain_angle h p s -> chain_angle h l (ET.angle tr + s).

(** Shapes for the running example: the root carries a three-point
    contour. *)
Definition example_shapes (l : loc) : option (list R * list R) :=
  match l with
  | O => Some ([0; 1; 2], [0; 0; 0])
  | _ => None
  end.

(** ** class Circle *)

Module Circle.

Record t : Type := Build {
  _time : R;
  _radius : R;
  _x : list R;
  _y : list R
}.

(** [__init__(self, radius, num_points)] *)
Definition init (radius : R) (num_points : nat) : t :=
  let th := linspace 0 (2 * PI) num_points in
  {| _time := 0;
     _radius := radius;
     _x := (fun a => radius * cos a) <$> th;
     _y := (fun a => radius * sin a) <$> th |}.

(** [get_points] *)
Definition get_points (self : t) : list R * list R := (_x self, _y self).

End Circle.

(** Element [i] of [np.linspace(0, 2 * np.pi, N)], in closed form. *)
Definition theta (N i : nat) : R := 0 + INR i * ((2 * PI - 0) / INR (N - 1)).

(* ================================================================== *)
(** * Theorems *)
(* ================================================================== *)

(** ** Transformations *)

Lemma init_set_angle (a : R) (d : vec2) (self : ET.t) :
  ET.set_displacement (ET.set_angle self a) d = ET.init a d.
Proof. reflexivity. Qed.

Lemma rotation_orthogonal (a : R) (v : vec2) :
  dot (ET.rotation_of a) (dot (transpose (ET.rotation_of a)) v) = v.
Proof.
  destruct v as [x y]. unfold dot, transpose, ET.rotation_of. cbn.
  set (th := a * PI / 180).
  pose proof (sin2_cos2 th) as H. unfold Rsqr in H.
  f_equal.
  - transitivity ((sin th * sin th + cos th * cos th) * x); [ring|].
    rewrite H. ring.
  - transitivity ((sin th * sin th + cos th * cos th) * y); [ring|].
    rewrite H. ring.
Qed.

Lemma dot_vopp (M : mat2) (v : vec2) : dot M (vopp v) = vopp (dot M v).
Proof. unfold dot, vopp. cbn. f_equal; ring. Qed.

Lemma vadd_vopp_l (v : vec2) : vadd (vopp v) v = (0, 0).
Proof. unfold vadd, vopp. cbn. f_equal; ring. Qed.

(** The docstring of [compose] gives the rotation of the result as the
    product [R1 R2]; the code stores the summed angle and rebuilds the matrix
    from it.  The two agree. *)
Lemma rotation_of_plus (a b : R) :
  ET.rotation_of (a + b) = matmul (ET.rotation_of a) (ET.rotation_of b).
Proof.
  unfold ET.rotation_of, matmul. cbn.
  replace ((a + b) * PI / 180) with (a * PI / 180 + b * PI / 180) by lra.
  rewrite cos_plus, sin_plus.
  f_equal; f_equal; ring.
Qed.

Lemma compose_init (a b : R) (da db : vec2) :
  ET.compose (ET.init a da) (Some (ET.init b db))
  = ET.init (a + b)
      (cos (a * PI / 180) * fst db + sin (a * PI / 180) * snd db + fst da,
       - sin (a * PI / 180) * fst db + cos (a * PI / 180) * snd db + snd da).
Proof. reflexivity. Qed.

(** C2: [A.compose(B)] has angle [A.angle + B.angle] and displacement
    [A._R . B.displacement + A.displacement]; its rotation matrix is the one
    derived from the summed angle; and [A.compose(None)] is [A] itself. *)
Theorem compose_spec (A B : ET.t) :
  ET.angle (ET.compose A (Some B)) = ET.angle A + ET.angle B
  /\ ET.displacement (ET.compose A (Some B))
     = vadd (dot (ET._R A) (ET.displacement B)) (ET.displacement A)
  /\ ET._R (ET.compose A (Some B)) = ET.rotation_of (ET.angle A + ET.angle B)
  /\ ET.compose A None = A.
Proof. repeat split. Qed.

(** C3: over the reals, [T.compose(T.inverse())] for
    [T = EuclideanTransformation(theta, d)] has angle 0 and displacement
    (0, 0). *)
Theorem compose_inverse_identity (theta : R) (d : vec2) :
  let T := ET.init theta d in
  ET.angle (ET.compose T (Some (ET.inverse T))) = 0
  /\ ET.displacement (ET.compose T (Some (ET.inverse T))) = (0, 0).
Proof.
  cbn zeta. split.
  - unfold ET.compose, ET.inverse, ET.angle. cbn. ring.
  - unfold ET.compose, ET.inverse, ET.displacement. cbn.
    rewrite dot_vopp, rotation_orthogonal. apply vadd_vopp_l.
Qed.

(** ** The object store: invariants *)

Lemma skel_lookup (h h' : list object) (l : loc) :
  skel <$> h = skel <$> h' -> skel <$> (h !! l) = skel <$> (h' !! l).
Proof. intros E. rewrite <- !list_lookup_fmap. by rewrite E. Qed.

Lemma skel_Body (h h' : list object) (l : loc) (t : R) :
  skel <$> h = skel <$> h' -> h !! l = Some (Body t) -> h' !! l = Some (Body t).
Proof.
  intros E H. apply skel_lookup with (l := l) in E. rewrite H in E.
  destruct (h' !! l) as [[|]|]; cbn in E; congruence.
Qed.

Lemma skel_TransformedBody (h h' : list object) (l p b : loc) tr cls :
  skel <$> h = skel <$> h' ->
  h !! l = Some (TransformedBody p b tr cls) ->
  exists tr', h' !! l = Some (TransformedBody p b tr' cls).
Proof.
  intros E H. apply skel_lookup with (l := l) in E. rewrite H in E.
  destruct (h' !! l) as [[|p' b' tr' cls']|]; cbn in E; try congruence.
  exists tr'. congruence.
Qed.

Lemma skel_get_body (h h' : list object) (l : loc) :
  skel <$> h = skel <$> h' -> get_body h l = get_body h' l.
Proof.
  intros E. apply skel_lookup with (l := l) in E. unfold get_body.
  destruct (h !! l) as [[|]|], (h' !! l) as [[|]|]; cbn in E; congruence.
Qed.

Lemma skel_wf (h h' : list object) :
  skel <$> h = skel <$> h' -> wf h -> wf h'.
Proof.
  intros E W l p b tr cls H.
  destruct (skel_TransformedBody h' h l p b tr cls (eq_sym E) H) as [tr' H'].
  destruct (W _ _ _ _ _ H') as (Hlt & Hb & t & Ht).
  split; [done|]. split.
  - by rewrite <- (skel_get_body h h' p E).
  - exists t. eapply skel_Body; eauto.
Qed.

Lemma skel_time (h h' : list object) (fuel : nat) (l : loc) :
  skel <$> h = skel <$> h' -> time fuel h l = time fuel h' l.
Proof.
  intros E. revert l. induction fuel as [|f IH]; intros l; [done|].
  cbn. pose proof (skel_lookup h h' l E) as El.
  destruct (h !! l) as [[|]|], (h' !! l) as [[|]|]; cbn in El;
    try congruence.
Qed.

Lemma skel_insert (h : list object) (l : loc) (o o' : object) :
  h !! l = Some o -> skel o' = skel o -> skel <$> <[l := o']> h = skel <$> h.
Proof.
  intros H E. rewrite list_fmap_insert, E. apply list_insert_id.
  by rewrite list_lookup_fmap, H.
Qed.

Lemma set_angle_skel (h : list object) (l : loc) (v : R) (h' : list object) :
  set_angle h l v = Some h' -> skel <$> h' = skel <$> h.
Proof.
  unfold set_angle. destruct (h !! l) as [[|p b tr cls]|] eqn:H; try done.
  intros [= <-]. by eapply skel_insert.
Qed.

Lemma set_displacement_skel (h : list object) (l : loc) (v : vec2)
    (h' : list object) :
  set_displacement h l v = Some h' -> skel <$> h' = skel <$> h.
Proof.
  unfold set_displacement.
  destruct (h !! l) as [[|p b tr cls]|] eqn:H; try done.
  intros [= <-]. by eapply skel_insert.
Qed.

Lemma get_transformation_skel (fuel : nat) :
  forall (h : list object) (l : loc) h' r,
    get_transformation fuel h l = Some (h', r) -> skel <$> h' = skel <$> h.
Proof.
  induction fuel as [|f IH]; intros h l h' r; [done|]. cbn.
  destruct (h !! l) as [[t|p b tr cls]|] eqn:H; try done.
  - by intros [= <- <-].
  - intros G. apply bind_Some in G as (h1 & G1 & G).
    apply bind_Some in G as ([h2 other] & G2 & G).
    apply bind_Some in G as (tr' & _ & [= <- <-]).
    apply IH in G2. rewrite G2.
    destruct cls as [|a w ph|d w ph].
    + by injection G1 as <-.
    + apply bind_Some in G1 as (t & _ & G1). by eapply set_angle_skel.
    + apply bind_Some in G1 as (t & _ & G1). by eapply set_displacement_skel.
Qed.

Lemma wf_nil : wf [].
Proof. intros l p b tr cls H. by rewrite lookup_nil in H. Qed.

Lemma get_body_app (h : list object) (o : object) (l b : loc) :
  get_body h l = Some b -> get_body (h ++ [o]) l = Some b.
Proof.
  unfold get_body. destruct (h !! l) as [x|] eqn:H; [|done].
  rewrite lookup_app_l by (by eapply lookup_lt_Some). by rewrite H.
Qed.

Lemma wf_snoc_old (h : list object) (o : object) :
  wf h ->
  forall l p b tr cls,
    h !! l = Some (TransformedBody p b tr cls) ->
    (p < l)%nat /\ get_body (h ++ [o]) p = Some b
    /\ exists t, (h ++ [o]) !! b = Some (Body t).
Proof.
  intros W l p b tr cls H.
  destruct (W _ _ _ _ _ H) as (Hlt & Hb & t & Ht).
  split; [done|]. split; [by apply get_body_app|].
  exists t. rewrite lookup_app_l by (by eapply lookup_lt_Some). done.
Qed.

Lemma wf_Body_init (h : list object) : wf h -> wf (fst (Body_init h)).
Proof.
  intros W l p b tr cls H. cbn in H.
  apply lookup_snoc_Some in H as [[_ H]|[_ H]]; [|done].
  by eapply wf_snoc_old.
Qed.

Lemma get_body_is_Body (h : list object) (l b : loc) :
  wf h -> get_body h l = Some b -> exists t, h !! b = Some (Body t).
Proof.
  intros W. unfold get_body.
  destruct (h !! l) as [[t|p b' tr cls]|] eqn:H; try done.
  - intros [= <-]. eauto.
  - intros [= <-]. destruct (W _ _ _ _ _ H) as (Hlt & Hb & t & Ht). eauto.
Qed.

Lemma wf_decorate (h : list object) body a d cls h' l :
  wf h -> decorate h body a d cls = Some (h', l) ->
  wf h' /\ l = length h
  /\ exists b, get_body h body = Some b
       /\ h' = h ++ [TransformedBody body b (ET.init a d) cls].
Proof.
  intros W D. unfold decorate in D.
  apply bind_Some in D as (b & Hb & [= <- <-]).
  split; [|eauto].
  intros l p b' tr cls' H.
  apply lookup_snoc_Some in H as [[_ H]|[-> [= <- <- <- <-]]].
  - by eapply wf_snoc_old.
  - destruct (get_body_is_Body h body b W Hb) as (t & Ht).
    assert (body < length h)%nat.
    { unfold get_body in Hb. destruct (h !! body) eqn:E; [|done].
      by eapply lookup_lt_Some. }
    split; [done|]. split; [by apply get_body_app|].
    exists t. rewrite lookup_app_l by (by eapply lookup_lt_Some). done.
Qed.

(** ** The shared time *)

(** Reading [time] anywhere reads the [_time] of the object [get_body]
    returns. *)
Lemma time_get_body (h : list object) (fuel : nat) (l r : loc) (t : R) :
  wf h -> get_body h l = Some r -> h !! r = Some (Body t) ->
  (2 <= fuel)%nat -> time fuel h l = Some t.
Proof.
  intros W Hb Hr Hf. destruct fuel as [|[|f]]; try lia.
  unfold get_body in Hb. cbn.
  destruct (h !! l) as [[t'|p b tr cls]|] eqn:H; try done.
  - injection Hb as ->. congruence.
  - injection Hb as ->. by rewrite Hr.
Qed.

(** Writing [time] anywhere overwrites the [_time] of that same object and
    nothing else. *)
Lemma set_time_get_body (h : list object) (fuel : nat) (l r : loc) (v : R) :
  wf h -> get_body h l = Some r -> (2 <= fuel)%nat ->
  set_time fuel h l v = Some (<[r := Body v]> h).
Proof.
  intros W Hb Hf. destruct fuel as [|[|f]]; try lia.
  destruct (get_body_is_Body h l r W Hb) as [t Hr].
  unfold get_body in Hb. cbn.
  destruct (h !! l) as [[t'|p b tr cls]|] eqn:H; try done.
  - by injection Hb as ->.
  - injection Hb as ->. by rewrite Hr.
Qed.

Lemma set_time_inv (fuel : nat) :
  forall (h : list object) (l : loc) (v : R) (h' : list object),
    set_time fuel h l v = Some h' ->
    exists r t, h !! r = Some (Body t) /\ h' = <[r := Body v]> h.
Proof.
  induction fuel as [|f IH]; intros h l v h'; [done|]. cbn.
  destruct (h !! l) as [[t|p b tr cls]|] eqn:H; try done.
  - intros [= <-]. eauto.
  - apply IH.
Qed.

Lemma get_body_insert_Body (h : list object) (r : loc) (t v : R) (l : loc) :
  h !! r = Some (Body t) ->
  get_body (<[r := Body v]> h) l = get_body h l.
Proof.
  intros Hr. unfold get_body. destruct (decide (r = l)) as [->|Hne].
  - rewrite list_lookup_insert_eq by (by eapply lookup_lt_Some).
    by rewrite Hr.
  - by rewrite list_lookup_insert_ne.
Qed.

Lemma wf_insert_Body (h : list object) (r : loc) (t v : R) :
  wf h -> h !! r = Some (Body t) -> wf (<[r := Body v]> h).
Proof.
  intros W Hr l p b tr cls H.
  assert (Hl : h !! l = Some (TransformedBody p b tr cls)).
  { destruct (decide (r = l)) as [->|Hne].
    - rewrite list_lookup_insert_eq in H by (by eapply lookup_lt_Some).
      done.
    - by rewrite list_lookup_insert_ne in H. }
  destruct (W _ _ _ _ _ Hl) as (Hlt & Hb & t' & Ht').
  split; [done|]. split.
  - by rewrite (get_body_insert_Body h r t v).
  - destruct (decide (r = b)) as [->|Hne].
    + exists v. apply list_lookup_insert_eq. by eapply lookup_lt_Some.
    + exists t'. by rewrite list_lookup_insert_ne.
Qed.

Lemma wf_set_time (h : list object) (fuel : nat) (l : loc) (v : R) h' :
  wf h -> set_time fuel h l v = Some h' -> wf h'.
Proof.
  intros W S. apply set_time_inv in S as (r & t & Hr & ->).
  by eapply wf_insert_Body.
Qed.

(** Every store a program can build satisfies the invariant. *)
Lemma reachable_wf (h : list object) : reachable h -> wf h.
Proof.
  induction 1 as [|h _ IH|h body a d cls h' l _ IH D|h fuel l v h' _ IH S
                 |h l v h' _ IH S|h l v h' _ IH S|h fuel l h' r _ IH G].
  - apply wf_nil.
  - by apply wf_Body_init.
  - by destruct (wf_decorate _ _ _ _ _ _ _ IH D).
  - by eapply wf_set_time.
  - eapply skel_wf; [|exact IH]. symmetry. by eapply set_angle_skel.
  - eapply skel_wf; [|exact IH]. symmetry. by eapply set_displacement_skel.
  - eapply skel_wf; [|exact IH]. symmetry.
    by eapply get_transformation_skel.
Qed.

(** The [_body] of every decorator in a chain is the chain's root: this is
    what [self._body = body.get_body()] achieves. *)
Lemma in_chain_get_body (h : list object) (root l : loc) :
  wf h -> in_chain h root l -> get_body h l = Some root.
Proof.
  intros W. induction 1 as [t Hr|l p b tr cls Hl _ IH].
  - unfold get_body. by rewrite Hr.
  - destruct (W _ _ _ _ _ Hl) as (_ & Hb & _).
    unfold get_body at 1. rewrite Hl. congruence.
Qed.

Lemma in_chain_root_Body (h : list object) (root l : loc) :
  in_chain h root l -> exists t, h !! root = Some (Body t).
Proof. induction 1; eauto. Qed.

Lemma in_chain_insert_Body (h : list object) (r root l : loc) (t v : R) :
  h !! r = Some (Body t) ->
  in_chain h root l -> in_chain (<[r := Body v]> h) root l.
Proof.
  intros Hr. induction 1 as [t' Hroot|l p b tr cls Hl _ IH].
  - destruct (decide (r = root)) as [->|Hne].
    + apply chain_root with v. apply list_lookup_insert_eq.
      by eapply lookup_lt_Some.
    + apply chain_root with t'. by rewrite list_lookup_insert_ne.
  - eapply chain_decorator; [|exact IH].
    rewrite list_lookup_insert_ne; [exact Hl|]. congruence.
Qed.

Lemma last_cons_eq (x : R) (l : list R) (d : R) :
  List.last (x :: l) d = List.last l x.
Proof.
  revert x d. induction l as [|y l IH]; intros x d; [done|].
  change (List.last (y :: l) d = List.last (y :: l) x).
  by rewrite !IH.
Qed.

Lemma write_times_chain (fuel : nat) (root : loc) (ws : list (loc * R)) :
  (2 <= fuel)%nat ->
  forall (h : list object) (t0 : R),
    wf h -> h !! root = Some (Body t0) ->
    Forall (fun w => in_chain h root (fst w)) ws ->
    exists h',
      write_times fuel h ws = Some h'
      /\ wf h'
      /\ h' !! root = Some (Body (List.last (snd <$> ws) t0))
      /\ forall l, in_chain h root l -> in_chain h' root l.
Proof.
  intros Hf. induction ws as [|[l v] ws IH]; intros h t0 W Hroot Hws.
  - exists h. by cbn.
  - apply Forall_cons in Hws as [Hl Hws]. cbn in Hl.
    pose proof (in_chain_get_body h root l W Hl) as Hb.
    pose proof (set_time_get_body h fuel l root v W Hb Hf) as S.
    set (h1 := <[root := Body v]> h) in *.
    assert (W1 : wf h1) by (by eapply wf_insert_Body).
    assert (Hroot1 : h1 !! root = Some (Body v)).
    { apply list_lookup_insert_eq. by eapply lookup_lt_Some. }
    assert (Hws1 : Forall (fun w => in_chain h1 root (fst w)) ws).
    { eapply Forall_impl; [exact Hws|]. intros w Hw.
      by eapply in_chain_insert_Body. }
    destruct (IH h1 v W1 Hroot1 Hws1) as (h' & Hw & W' & Hr' & Hc).
    exists h'. cbn [write_times]. rewrite S. cbn. split; [done|].
    split; [done|]. split.
    + rewrite Hr'. do 2 f_equal.
      destruct (snd <$> ws) as [|y ys]; [done|]. by rewrite !last_cons_eq.
    + intros l' Hl'. apply Hc. by eapply in_chain_insert_Body.
Qed.

(** C4: in a chain of decorators over a root [Body], any sequence of
    assignments to [time], each made through any member of the chain,
    succeeds and leaves one value, stored in the root's [_time] (the last
    value assigned, or the previous one if nothing was assigned), and the
    [time] property of every member of the chain reads that value. *)
Theorem time_shared_in_chain (h : list object) (root : loc) (t0 : R)
    (ws : list (loc * R)) (fuel : nat) :
  reachable h ->
  h !! root = Some (Body t0) ->
  Forall (fun w => in_chain h root (fst w)) ws ->
  (2 <= fuel)%nat ->
  exists h',
    write_times fuel h ws = Some h'
    /\ h' !! root = Some (Body (List.last (snd <$> ws) t0))
    /\ forall l, in_chain h root l ->
         in_chain h' root l
         /\ time fuel h' l = Some (List.last (snd <$> ws) t0).
Proof.
  intros Hreach Hroot Hws Hf.
  pose proof (reachable_wf h Hreach) as W.
  destruct (write_times_chain fuel root ws Hf h t0 W Hroot Hws)
    as (h' & Hw & W' & Hr' & Hc).
  exists h'. split; [done|]. split; [done|].
  intros l Hl. split; [by apply Hc|].
  eapply time_get_body; eauto.
  apply in_chain_get_body; [done|]. by apply Hc.
Qed.

Lemma example_chain_reachable : reachable example_chain.
Proof.
  eapply (reach_decorate (take 3 example_chain) 2 10 (-0.25, 0) Plain);
    [|reflexivity].
  eapply (reach_decorate (take 2 example_chain) 1 0 (0, 0)
            (Heaving (1, 0) 1 (0 * PI / 180))); [|reflexivity].
  eapply (reach_decorate (take 1 example_chain) 0 0 (0, 0)
            (Pitching 2 3 (0 * PI / 180))); [|reflexivity].
  apply (reach_Body []), reach_empty.
Qed.

Lemma example_chain_members (l : loc) :
  (l < 4)%nat -> in_chain example_chain 0 l.
Proof.
  intros Hl.
  assert (H0 : in_chain example_chain 0 0) by (by eapply chain_root).
  assert (H1 : in_chain example_chain 0 1)
    by (eapply chain_decorator; [reflexivity|exact H0]).
  assert (H2 : in_chain example_chain 0 2)
    by (eapply chain_decorator; [reflexivity|exact H1]).
  assert (H3 : in_chain example_chain 0 3)
    by (eapply chain_decorator; [reflexivity|exact H2]).
  destruct l as [|[|[|[|l]]]]; try done. lia.
Qed.

Lemma time_shared_in_chain_witness :
  exists h',
    write_times 2 example_chain [(3%nat, 1.5); (1%nat, 2)] = Some h'
    /\ h' !! 0%nat = Some (Body 2)
    /\ forall l, in_chain example_chain 0 l ->
         in_chain h' 0 l /\ time 2 h' l = Some 2.
Proof.
  apply (time_shared_in_chain example_chain 0 0
           [(3%nat, 1.5); (1%nat, 2)] 2).
  - exact example_chain_reachable.
  - reflexivity.
  - repeat constructor; apply example_chain_members; cbn; lia.
  - lia.
Defined.

(** ** Pitching *)

Lemma set_angle_lookup (h : list object) (l : loc) (v : R) h' :
  set_angle h l v = Some h' ->
  exists p b tr cls,
    h !! l = Some (TransformedBody p b tr cls)
    /\ h' = <[l := TransformedBody p b (ET.set_angle tr v) cls]> h.
Proof.
  unfold set_angle. destruct (h !! l) as [[|p b tr cls]|]; try done.
  intros [= <-]. by exists p, b, tr, cls.
Qed.

Lemma set_displacement_lookup (h : list object) (l : loc) (v : vec2) h' :
  set_displacement h l v = Some h' ->
  exists p b tr cls,
    h !! l = Some (TransformedBody p b tr cls)
    /\ h' = <[l := TransformedBody p b (ET.set_displacement tr v) cls]> h.
Proof.
  unfold set_displacement. destruct (h !! l) as [[|p b tr cls]|]; try done.
  intros [= <-]. by exists p, b, tr, cls.
Qed.

(** [get_transformation] on an object only assigns to that object and to
    its ancestors, which were all created before it. *)
Lemma get_transformation_frame (fuel : nat) :
  forall (h : list object) (l : loc) h' r,
    wf h -> get_transformation fuel h l = Some (h', r) ->
    forall l', (l < l')%nat -> h' !! l' = h !! l'.
Proof.
  induction fuel as [|f IH]; intros h l h' r W; [done|]. cbn.
  destruct (h !! l) as [[t|p b tr cls]|] eqn:H; try done.
  - by intros [= <- <-].
  - intros G l' Hl'. apply bind_Some in G as (h1 & G1 & G).
    apply bind_Some in G as ([h2 other] & G2 & G).
    apply bind_Some in G as (tr' & _ & [= <- <-]).
    destruct (W _ _ _ _ _ H) as (Hlt & _).
    assert (E1 : skel <$> h1 = skel <$> h /\ h1 !! l' = h !! l').
    { destruct cls as [|a w ph|d w ph].
      - by injection G1 as <-.
      - apply bind_Some in G1 as (t & _ & G1). split.
        + by eapply set_angle_skel.
        + apply set_angle_lookup in G1 as (? & ? & ? & ? & _ & ->).
          apply list_lookup_insert_ne. lia.
      - apply bind_Some in G1 as (t & _ & G1). split.
        + by eapply set_displacement_skel.
        + apply set_displacement_lookup in G1 as (? & ? & ? & ? & _ & ->).
          apply list_lookup_insert_ne. lia. }
    destruct E1 as [E1 <-].
    eapply IH; [|exact G2|lia].
    eapply skel_wf; [|exact W]. done.
Qed.

Lemma decorator_time (h : list object) (l p b : loc) tr cls (fuel : nat) :
  wf h -> h !! l = Some (TransformedBody p b tr cls) -> (2 <= fuel)%nat ->
  exists t, h !! b = Some (Body t) /\ time fuel h l = Some t.
Proof.
  intros W H Hf. destruct (W _ _ _ _ _ H) as (_ & _ & t & Ht).
  exists t. split; [done|]. eapply time_get_body; eauto.
  unfold get_body. by rewrite H.
Qed.

(** With fuel beyond the object's index the call returns. *)
Lemma get_transformation_total (fuel : nat) :
  forall (h : list object) (l : loc),
    wf h -> (l < length h)%nat -> (l + 2 <= fuel)%nat ->
    exists h' r, get_transformation fuel h l = Some (h', r).
Proof.
  induction fuel as [|f IH]; intros h l W Hl Hf; [lia|]. cbn.
  destruct (lookup_lt_is_Some_2 h l Hl) as [o H]. rewrite H.
  destruct o as [t|p b tr cls]; [eauto|].
  destruct (W _ _ _ _ _ H) as (Hlt & _).
  assert (Hf2 : (2 <= f)%nat) by lia.
  destruct (decorator_time h l p b tr cls f W H Hf2) as (t & _ & Ht).
  assert (G1 : exists h1,
    match cls with
    | Plain => Some h
    | Pitching a w ph => t ← time f h l; set_angle h l (a * sin (w * t + ph))
    | Heaving d w ph =>
        t ← time f h l; set_displacement h l (vscale d (sin (w * t + ph)))
    end = Some h1
    /\ skel <$> h1 = skel <$> h /\ exists tr1, h1 !! l = Some (TransformedBody p b tr1 cls)).
  { destruct cls as [|a w ph|d w ph].
    - exists h. eauto.
    - rewrite Ht. cbn. unfold set_angle. rewrite H. eexists. split; [done|].
      split; [by eapply skel_insert|]. eexists.
      by apply list_lookup_insert_eq.
    - rewrite Ht. cbn. unfold set_displacement. rewrite H.
      eexists. split; [done|].
      split; [by eapply skel_insert|]. eexists.
      by apply list_lookup_insert_eq. }
  destruct G1 as (h1 & -> & E1 & tr1 & H1). cbn.
  assert (W1 : wf h1) by (eapply skel_wf; [|exact W]; done).
  assert (Hl1 : (p < length h1)%nat).
  { apply lookup_lt_Some in H1. lia. }
  destruct (IH h1 p W1 Hl1 ltac:(lia)) as (h2 & other & G2).
  rewrite G2. cbn.
  pose proof (get_transformation_frame f h1 p h2 other W1 G2 l Hlt) as F.
  unfold transformation_of. rewrite F, H1. cbn. eauto.
Qed.

(** What [Pitching.get_transformation] leaves in the object's own angle. *)
Lemma get_transformation_Pitching (h : list object) (l p b : loc) tr
    (A w ph t : R) (fuel : nat) :
  wf h ->
  h !! l = Some (TransformedBody p b tr (Pitching A w ph)) ->
  h !! b = Some (Body t) ->
  (l + 2 <= fuel)%nat ->
  exists h' T,
    get_transformation fuel h l = Some (h', Some T)
    /\ angle h' l = Some (A * sin (w * t + ph)).
Proof.
  intros W H Hb Hf.
  assert (Hl : (l < length h)%nat) by (by eapply lookup_lt_Some).
  destruct (get_transformation_total fuel h l W Hl Hf) as (h' & r & G).
  destruct fuel as [|f]; [lia|]. cbn in G. rewrite H in G.
  destruct (W _ _ _ _ _ H) as (Hlt & _).
  destruct (decorator_time h l p b _ _ f W H ltac:(lia)) as (t' & Hb' & Ht).
  assert (t' = t) as -> by congruence.
  rewrite Ht in G. cbn in G. unfold set_angle in G. rewrite H in G.
  cbn in G.
  set (h1 := <[l := _]> h) in G.
  apply bind_Some in G as ([h2 other] & G2 & G).
  apply bind_Some in G as (tr' & Htr & [= <- <-]).
  assert (W1 : wf h1) by (eapply skel_wf; [|exact W]; symmetry;
                          by eapply skel_insert).
  pose proof (get_transformation_frame f h1 p h2 other W1 G2 l Hlt) as F.
  unfold h1 in F. rewrite list_lookup_insert_eq in F by done.
  exists h2, (ET.compose tr' other). split.
  - cbn. rewrite H, Ht. cbn. unfold set_angle. rewrite H. cbn.
    fold h1. rewrite G2. cbn. rewrite Htr. done.
  - unfold angle, transformation_of. rewrite F. done.
Qed.

(** C9: construct a [Pitching] decorator with amplitude [A], frequency [w]
    and phase 0 over any existing object, assign [t] to its [time], and call
    [get_transformation]: every step succeeds, and afterwards the
    decorator's own angle is [A * sin (w * t)]; for [t = 0] it is 0. *)
Theorem pitching_angle (h : list object) (body : loc) (A w t : R)
    (fuel : nat) :
  reachable h -> (body < length h)%nat -> (length h + 2 <= fuel)%nat ->
  exists h1 l h2 h3 T,
    Pitching_init h body A w 0 = Some (h1, l)
    /\ set_time fuel h1 l t = Some h2
    /\ get_transformation fuel h2 l = Some (h3, Some T)
    /\ angle h3 l = Some (A * sin (w * t))
    /\ (t = 0 -> angle h3 l = Some 0).
Proof.
  intros Hreach Hbody Hf. pose proof (reachable_wf h Hreach) as W.
  destruct (lookup_lt_is_Some_2 h body Hbody) as [o Ho].
  assert (Hb : exists b, get_body h body = Some b).
  { unfold get_body. rewrite Ho. destruct o; eauto. }
  destruct Hb as [b Hb].
  assert (D : Pitching_init h body A w 0
              = Some (h ++ [TransformedBody body b (ET.init 0 (0, 0))
                              (Pitching A w (0 * PI / 180))], length h)).
  { unfold Pitching_init, decorate. rewrite Hb. done. }
  set (h1 := h ++ _) in D. set (l := length h) in *.
  destruct (wf_decorate _ _ _ _ _ _ _ W D) as (W1 & _ & _).
  assert (H1 : h1 !! l = Some (TransformedBody body b (ET.init 0 (0, 0))
                                 (Pitching A w (0 * PI / 180)))).
  { unfold h1, l. by rewrite list_lookup_middle. }
  assert (Hb1 : get_body h1 l = Some b) by (unfold get_body; by rewrite H1).
  destruct (get_body_is_Body h1 l b W1 Hb1) as [t0 Ht0].
  pose proof (set_time_get_body h1 fuel l b t W1 Hb1 ltac:(lia)) as S.
  set (h2 := <[b := Body t]> h1) in S.
  assert (W2 : wf h2) by (by eapply wf_insert_Body).
  assert (Hne : b <> l) by congruence.
  assert (H2 : h2 !! l = Some (TransformedBody body b (ET.init 0 (0, 0))
                                 (Pitching A w (0 * PI / 180)))).
  { unfold h2. by rewrite list_lookup_insert_ne. }
  assert (H2b : h2 !! b = Some (Body t)).
  { unfold h2. apply list_lookup_insert_eq. by eapply lookup_lt_Some. }
  destruct (get_transformation_Pitching h2 l body b _ A w _ t fuel
              W2 H2 H2b ltac:(lia)) as (h3 & T & G & Ha).
  assert (E : A * sin (w * t + 0 * PI / 180) = A * sin (w * t)).
  { f_equal. f_equal. lra. }
  rewrite E in Ha.
  exists h1, l, h2, h3, T. repeat split; try done.
  intros ->. rewrite Ha. f_equal. rewrite Rmult_0_r, sin_0. lra.
Qed.

Lemma pitching_angle_witness :
  exists h1 l h2 h3 T,
    Pitching_init example_chain 3 2 3 0 = Some (h1, l)
    /\ set_time 6 h1 l 0.5 = Some h2
    /\ get_transformation 6 h2 l = Some (h3, Some T)
    /\ angle h3 l = Some (2 * sin (3 * 0.5))
    /\ (0.5 = 0 -> angle h3 l = Some 0).
Proof.
  apply (pitching_angle example_chain 3 2 3 0.5 6).
  - exact example_chain_reachable.
  - cbn. lia.
  - cbn. lia.
Defined.

(** ** Panels *)

Lemma length_diff (a : list R) : length (diff a) = (length a - 1)%nat.
Proof.
  unfold diff. rewrite length_zip_with. destruct a; cbn; lia.
Qed.

Lemma lookup_diff (a : list R) (i : nat) (x0 x1 : R) :
  a !! i = Some x0 -> a !! S i = Some x1 -> diff a !! i = Some (x1 - x0).
Proof.
  intros H0 H1. unfold diff.
  by rewrite lookup_zip_with, lookup_tail, H1, H0.
Qed.

Lemma lookup_but_last (a : list R) (i : nat) (x0 x1 : R) :
  a !! i = Some x0 -> a !! S i = Some x1 -> but_last a !! i = Some x0.
Proof.
  intros H0 H1. unfold but_last. apply lookup_lt_Some in H1.
  rewrite lookup_take_lt by lia. done.
Qed.

Lemma lookup_add_scaled (a d : list R) (k : R) (i : nat) (x0 dx : R) :
  a !! i = Some x0 -> d !! i = Some dx ->
  add_scaled a k d !! i = Some (x0 + k * dx).
Proof.
  intros H0 H1. unfold add_scaled. by rewrite lookup_zip_with, H0, H1.
Qed.

Lemma length_add_scaled_diff (a : list R) (k : R) :
  length (add_scaled (but_last a) k (diff a)) = (length a - 1)%nat.
Proof.
  unfold add_scaled, but_last.
  rewrite length_zip_with, length_take, length_diff. lia.
Qed.

(** [np.hstack([A[:, :n], B[:, n:]])], read at column [i]. *)
Lemma lookup_take_drop (A B : list R) (n i : nat) :
  (n <= length A)%nat ->
  (take n A ++ drop n B) !! i = if (i <? n)%nat then A !! i else B !! i.
Proof.
  intros Hn. destruct (Nat.ltb_spec i n) as [Hi|Hi].
  - rewrite lookup_app_l by (rewrite length_take; lia).
    by apply lookup_take_lt.
  - rewrite lookup_app_r by (rewrite length_take; lia).
    rewrite lookup_drop, length_take. f_equal. lia.
Qed.

Lemma BVP_init_Ok (x y : list R) :
  length x = length y -> exists P, BVP.init x y = Ok P.
Proof.
  intros E. unfold BVP.init, vstack.
  rewrite (proj2 (Nat.eqb_eq _ _) E). eauto.
Qed.

(** Column [i] of the stacked quarter arrays. *)
Lemma panel_column (q25 q75 : list R) (a : list R) (half i : nat)
    (x0 x1 : R) :
  q25 = add_scaled (but_last a) 0.25 (diff a) ->
  q75 = add_scaled (but_last a) 0.75 (diff a) ->
  (half <= length a - 1)%nat ->
  a !! i = Some x0 -> a !! S i = Some x1 ->
  (take half q75 ++ drop half q25) !! i
    = Some (if (i <? half)%nat then x0 + 0.75 * (x1 - x0)
            else x0 + 0.25 * (x1 - x0))
  /\ (take half q25 ++ drop half q75) !! i
    = Some (if (i <? half)%nat then x0 + 0.25 * (x1 - x0)
            else x0 + 0.75 * (x1 - x0)).
Proof.
  intros -> -> Hh H0 H1.
  pose proof (lookup_but_last a i x0 x1 H0 H1) as Hb.
  pose proof (lookup_diff a i x0 x1 H0 H1) as Hd.
  rewrite !lookup_take_drop by (by rewrite length_add_scaled_diff).
  rewrite !(lookup_add_scaled _ _ _ i x0 (x1 - x0)) by done.
  by destruct (i <? half)%nat.
Qed.

(** C1 (as the code has it): for boundary points of equal-length
    coordinate rows, panel [i] runs from point [i] to point [i+1]; if
    [i < floor(numpanels / 2)] its vortex point is at 3/4 of the edge from
    its start and its collocation point at 1/4; otherwise the vortex point
    is at 1/4 and the collocation point at 3/4. *)
Theorem panel_points (x y : list R) (i : nat) (a b : vec2) :
  length x = length y ->
  x !! i = Some (fst a) -> y !! i = Some (snd a) ->
  x !! S i = Some (fst b) -> y !! S i = Some (snd b) ->
  exists P,
    BVP.init x y = Ok P
    /\ BVP._numpanels P = (length x - 1)%nat
    /\ BVP.vortex P i
       = Some (if (i <? BVP._numpanels P / 2)%nat
               then along 0.75 a b else along 0.25 a b)
    /\ BVP.collocation_pt P i
       = Some (if (i <? BVP._numpanels P / 2)%nat
               then along 0.25 a b else along 0.75 a b).
Proof.
  intros E Hx0 Hy0 Hx1 Hy1. unfold BVP.init, vstack.
  rewrite (proj2 (Nat.eqb_eq _ _) E). cbn [fst snd].
  eexists. split; [reflexivity|]. cbn [BVP._numpanels].
  rewrite length_diff. split; [done|].
  set (half := ((length x - 1) / 2)%nat).
  assert (Hh : (half <= length x - 1)%nat).
  { unfold half. apply Nat.Div0.div_le_upper_bound. lia. }
  assert (Hh' : (half <= length y - 1)%nat) by lia.
  destruct (panel_column _ _ x half i _ _ eq_refl eq_refl Hh Hx0 Hx1)
    as [Vx Cx].
  destruct (panel_column _ _ y half i _ _ eq_refl eq_refl Hh' Hy0 Hy1)
    as [Vy Cy].
  unfold BVP.vortex, BVP.collocation_pt. cbn [BVP._xvort BVP._xcoll fst snd].
  rewrite Vx, Vy, Cx, Cy. unfold along.
  by destruct (i <? half)%nat.
Qed.

Lemma panel_points_witness :
  exists P,
    BVP.init [0; 1; 2] [0; 0; 0] = Ok P
    /\ BVP._numpanels P = 2%nat
    /\ BVP.vortex P 1 = Some (along 0.25 (1, 0) (2, 0))
    /\ BVP.collocation_pt P 1 = Some (along 0.75 (1, 0) (2, 0)).
Proof.
  destruct (panel_points [0; 1; 2] [0; 0; 0] 1 (1, 0) (2, 0))
    as (P & HP & Hn & Hv & Hc); try reflexivity.
  exists P. rewrite Hn in Hv, Hc. by repeat split.
Defined.

Lemma front_half_vortex_not_at_quarter :
  exists P,
    BVP.init [0; 1; 2] [0; 0; 0] = Ok P
    /\ (0 <? BVP._numpanels P / 2)%nat = true
    /\ BVP.vortex P 0 <> Some (along 0.25 (0, 0) (1, 0))
    /\ BVP.collocation_pt P 0 <> Some (along 0.75 (0, 0) (1, 0)).
Proof.
  eexists. split; [reflexivity|]. split; [reflexivity|].
  unfold BVP.vortex, BVP.collocation_pt, along. simpl.
  split; intros [= H _]; lra.
Qed.

(** C5 (as the code has it): whenever the two coordinate rows have the
    same length the constructor returns a panel set, with
    [length x - 1] panels; with fewer than 2 points that is a panel set with
    no panel and empty arrays.  (The only exception is [np.vstack]'s, for
    rows of different lengths.) *)
Theorem init_never_insufficient (x y : list R) :
  length x = length y ->
  exists P,
    BVP.init x y = Ok P
    /\ BVP._numpanels P = (length x - 1)%nat
    /\ length (BVP._gam P) = BVP._numpanels P
    /\ ((length x < 2)%nat ->
        P = {| BVP._numpanels := 0;
               BVP._normals := ([], []);
               BVP._xvort := ([], []);
               BVP._xcoll := ([], []);
               BVP._gam := [] |}).
Proof.
  intros E. unfold BVP.init, vstack.
  rewrite (proj2 (Nat.eqb_eq _ _) E). cbn [fst snd].
  eexists. split; [reflexivity|]. cbn [BVP._numpanels BVP._gam].
  rewrite length_replicate, length_diff. split; [done|]. split; [done|].
  intros Hlt.
  destruct x as [|x0 [|x1 x]], y as [|y0 [|y1 y]]; cbn in E, Hlt;
    try lia; reflexivity.
Qed.

Lemma init_never_insufficient_witness :
  exists P,
    BVP.init [0] [0] = Ok P
    /\ BVP._numpanels P = 0%nat
    /\ length (BVP._gam P) = BVP._numpanels P
    /\ ((1 < 2)%nat ->
        P = {| BVP._numpanels := 0;
               BVP._normals := ([], []);
               BVP._xvort := ([], []);
               BVP._xcoll := ([], []);
               BVP._gam := [] |}).
Proof. apply (init_never_insufficient [0] [0]). reflexivity. Defined.

Lemma one_point_is_accepted :
  BVP.init [0] [0]
    = Ok {| BVP._numpanels := 0;
            BVP._normals := ([], []);
            BVP._xvort := ([], []);
            BVP._xcoll := ([], []);
            BVP._gam := [] |}
  /\ forall e, BVP.init [0] [0] <> Raise e.
Proof. split; [reflexivity|]. intros e. discriminate. Qed.

(** The constructor raises exactly when [np.vstack] does. *)
Lemma BVP_init_Raise (x y : list R) (e : exn) :
  BVP.init x y = Raise e -> length x <> length y.
Proof.
  unfold BVP.init, vstack.
  destruct (Nat.eqb_spec (length x) (length y)); [discriminate|done].
Qed.

Lemma norm2_zero : norm2 0 0 = 0.
Proof.
  unfold norm2. replace (0 * 0 + 0 * 0) with 0 by ring. apply sqrt_0.
Qed.

Lemma norm2_pos (dx dy : R) : (dx <> 0 \/ dy <> 0) -> 0 < norm2 dx dy.
Proof.
  intros H. unfold norm2. apply sqrt_lt_R0. destruct H; nra.
Qed.

Lemma np_divide_0_0 : np_divide 0 0 = NaN.
Proof.
  unfold np_divide. destruct (Req_dec_T 0 0); [|done]. done.
Qed.

Lemma np_divide_finite (x n : R) : n <> 0 -> np_divide x n = Finite (x / n).
Proof. intros H. unfold np_divide. by destruct (Req_dec_T n 0). Qed.

(** Column [i] of the normals, in terms of the edge of panel [i]. *)
Lemma normal_column (x y : list R) (i : nat) (a b : vec2) (P : BVP.t) :
  BVP.init x y = Ok P ->
  x !! i = Some (fst a) -> y !! i = Some (snd a) ->
  x !! S i = Some (fst b) -> y !! S i = Some (snd b) ->
  BVP.normal P i
  = Some (np_divide (snd b - snd a)
            (norm2 (fst b - fst a) (snd b - snd a)),
          np_divide (- (fst b - fst a))
            (norm2 (fst b - fst a) (snd b - snd a))).
Proof.
  unfold BVP.init, vstack. destruct (length x =? length y)%nat; [|done].
  intros [= <-] Hx0 Hy0 Hx1 Hy1. cbn [fst snd].
  unfold BVP.normal. cbn [BVP._normals fst snd].
  rewrite !lookup_zip_with, list_lookup_fmap.
  rewrite (lookup_diff x i _ _ Hx0 Hx1), (lookup_diff y i _ _ Hy0 Hy1).
  done.
Qed.

(** C6 (as the code has it): a panel whose two end points coincide is not
    rejected; the constructor returns a panel set in which both components
    of that panel's normal are NaN. *)
Theorem degenerate_panel_normal_is_nan (x y : list R) (i : nat) (a : vec2) :
  length x = length y ->
  x !! i = Some (fst a) -> y !! i = Some (snd a) ->
  x !! S i = Some (fst a) -> y !! S i = Some (snd a) ->
  exists P,
    BVP.init x y = Ok P /\ BVP.normal P i = Some (NaN, NaN).
Proof.
  intros E Hx0 Hy0 Hx1 Hy1. destruct (BVP_init_Ok x y E) as [P HP].
  exists P. split; [done|].
  rewrite (normal_column x y i a a P HP Hx0 Hy0 Hx1 Hy1).
  replace (fst a - fst a) with 0 by ring.
  replace (snd a - snd a) with 0 by ring.
  replace (- 0) with 0 by ring.
  by rewrite norm2_zero, np_divide_0_0.
Qed.

Lemma degenerate_panel_normal_is_nan_witness :
  exists P,
    BVP.init [1; 0; 0; 1] [0; 0; 0; 0] = Ok P
    /\ BVP.normal P 1 = Some (NaN, NaN).
Proof.
  apply (degenerate_panel_normal_is_nan [1; 0; 0; 1] [0; 0; 0; 0] 1 (0, 0));
    reflexivity.
Defined.

Lemma degenerate_panel_is_accepted :
  exists P,
    BVP.init [1; 0; 0; 1] [0; 0; 0; 0] = Ok P
    /\ BVP.normal P 1 = Some (NaN, NaN)
    /\ forall e, BVP.init [1; 0; 0; 1] [0; 0; 0; 0] <> Raise e.
Proof.
  eexists. split; [reflexivity|]. split; [|discriminate].
  unfold BVP.normal. simpl.
  replace (0 - 0) with 0 by ring. replace (- 0) with 0 by ring.
  by rewrite norm2_zero, np_divide_0_0.
Qed.

(** A panel of non-zero length gets a finite normal of length 1,
    perpendicular to its edge. *)
Lemma proper_panel_normal (x y : list R) (i : nat) (a b : vec2) (P : BVP.t) :
  BVP.init x y = Ok P ->
  x !! i = Some (fst a) -> y !! i = Some (snd a) ->
  x !! S i = Some (fst b) -> y !! S i = Some (snd b) ->
  (fst b <> fst a \/ snd b <> snd a) ->
  exists nx ny,
    BVP.normal P i = Some (Finite nx, Finite ny)
    /\ nx * nx + ny * ny = 1
    /\ nx * (fst b - fst a) + ny * (snd b - snd a) = 0.
Proof.
  intros HP Hx0 Hy0 Hx1 Hy1 Hne.
  rewrite (normal_column x y i a b P HP Hx0 Hy0 Hx1 Hy1).
  set (dx := fst b - fst a). set (dy := snd b - snd a).
  assert (Hd : dx <> 0 \/ dy <> 0) by (unfold dx, dy; destruct Hne; [left|right]; lra).
  pose proof (norm2_pos dx dy Hd) as Hn.
  assert (Hsq : norm2 dx dy * norm2 dx dy = dx * dx + dy * dy).
  { unfold norm2. apply sqrt_sqrt. nra. }
  rewrite !np_divide_finite by lra.
  eexists _, _. split; [reflexivity|]. split.
  - field_simplify_eq; [|lra].
    replace (norm2 dx dy ^ 2) with (norm2 dx dy * norm2 dx dy) by ring.
    rewrite Hsq. ring.
  - field. lra.
Qed.

(** ** Airfoil *)

Example format_04d_12 : format_04d 12 = "0012"%string.
Proof. reflexivity. Qed.

Example format_04d_99999 : format_04d 99999 = "99999"%string.
Proof. reflexivity. Qed.

Example format_04d_neg : format_04d (-5) = "-005"%string.
Proof. reflexivity. Qed.

Example py_int_99999 : py_int "99999" = Ok 99999%Z.
Proof. reflexivity. Qed.

Example py_int_minus : exists e, py_int "-" = Raise e.
Proof. eexists. reflexivity. Qed.

Lemma digit_char_is_digit (d : Z) :
  (0 <= d < 10)%Z -> is_digit (digit_char d) = true.
Proof.
  intros Hd. unfold is_digit, digit_char.
  rewrite nat_ascii_embedding by lia.
  apply andb_true_intro. split; apply Nat.leb_le; lia.
Qed.

Lemma digits_aux_length_acc (fuel : nat) :
  forall (n : Z) (acc : string),
    (String.length acc <= String.length (digits_aux fuel n acc))%nat.
Proof.
  induction fuel as [|f IH]; intros n acc; [done|]. cbn.
  destruct (n / 10 =? 0)%Z; [cbn; lia|].
  etrans; [|apply IH]. cbn. lia.
Qed.

(** A number below [10^(k+1)] has at most [k+1] digits. *)
Lemma digits_aux_length_le (k : nat) :
  forall (fuel : nat) (n : Z) (acc : string),
    (0 <= n < 10 ^ Z.of_nat (S k))%Z ->
    (String.length (digits_aux fuel n acc) <= S k + String.length acc)%nat.
Proof.
  induction k as [|k IH]; intros fuel n acc Hn.
  - destruct fuel as [|f]; cbn; [lia|].
    assert (n / 10 = 0)%Z as -> by (apply Z.div_small; lia).
    cbn. lia.
  - destruct fuel as [|f]; cbn [digits_aux]; [lia|].
    destruct (n / 10 =? 0)%Z; [cbn; lia|].
    etrans; [apply IH|cbn; lia].
    rewrite Nat2Z.inj_succ, Z.pow_succ_r in Hn by lia.
    split; [apply Z.div_pos; lia|].
    apply Z.div_lt_upper_bound; lia.
Qed.

(** A number from [10^k] on has at least [k+1] digits. *)
Lemma digits_aux_length_ge (k : nat) :
  forall (fuel : nat) (n : Z) (acc : string),
    (10 ^ Z.of_nat k <= n)%Z -> (Z.to_nat n < fuel)%nat ->
    (S k + String.length acc <= String.length (digits_aux fuel n acc))%nat.
Proof.
  induction k as [|k IH]; intros fuel n acc Hn Hf.
  - destruct fuel as [|f]; [lia|]. cbn [digits_aux].
    destruct (n / 10 =? 0)%Z; [cbn; lia|].
    etrans; [|apply digits_aux_length_acc]. cbn. lia.
  - destruct fuel as [|f]; [lia|]. cbn [digits_aux].
    rewrite Nat2Z.inj_succ, Z.pow_succ_r in Hn by lia.
    assert (Hk : (0 < 10 ^ Z.of_nat k)%Z) by (apply Z.pow_pos_nonneg; lia).
    assert (Hq : (10 ^ Z.of_nat k <= n / 10)%Z).
    { apply Z.div_le_lower_bound; lia. }
    destruct (Z.eqb_spec (n / 10) 0) as [E|_]; [lia|].
    etrans; [|apply IH]; [cbn; lia|done|].
    assert (n / 10 < n)%Z by (apply Z.div_lt; lia). lia.
Qed.

Lemma length_zeros (k : nat) (s : string) :
  String.length (zeros k s) = (k + String.length s)%nat.
Proof. induction k as [|k IH]; cbn; [done|]. by rewrite IH. Qed.

Lemma length_decimal_small (n : Z) :
  (0 <= n < 10000)%Z -> (1 <= String.length (decimal n) <= 4)%nat.
Proof.
  intros Hn. unfold decimal. split.
  - cbn [digits_aux]. destruct (n / 10 =? 0)%Z; [cbn; lia|].
    etrans; [|apply digits_aux_length_acc]. cbn. lia.
  - etrans; [apply (digits_aux_length_le 3)|cbn; lia]. lia.
Qed.

Lemma length_decimal_large (n : Z) :
  (10000 <= n)%Z -> (5 <= String.length (decimal n))%nat.
Proof.
  intros Hn. unfold decimal.
  etrans; [|apply (digits_aux_length_ge 4)]; [cbn; lia| |lia].
  change (10 ^ Z.of_nat 4)%Z with 10000%Z. done.
Qed.

Lemma length_format_04d_small (n : Z) :
  (0 <= n < 10000)%Z -> String.length (format_04d n) = 4%nat.
Proof.
  intros Hn. unfold format_04d.
  destruct (Z.ltb_spec n 0) as [|_]; [lia|].
  pose proof (length_decimal_small n Hn). rewrite length_zeros. lia.
Qed.

Lemma length_format_04d_large (n : Z) :
  (10000 <= n)%Z -> (5 <= String.length (format_04d n))%nat.
Proof.
  intros Hn. unfold format_04d.
  destruct (Z.ltb_spec n 0) as [|_]; [lia|].
  pose proof (length_decimal_large n Hn). rewrite length_zeros. lia.
Qed.

Lemma py_int_digits (s : string) :
  s <> EmptyString -> all_digits s = true ->
  py_int s = Ok (digits_value 0 s).
Proof.
  intros Hne Hall. destruct s as [|c s']; [done|].
  unfold py_int. rewrite Hall.
  destruct (Ascii.eqb_spec c "-") as [->|_]; [|done].
  cbn in Hall. discriminate.
Qed.

Lemma init_Ok_inv (code : Z) (N : nat) (zt uni : bool) (A : Airfoil.t) :
  Airfoil.init code N zt uni = Ok A ->
  String.length (format_04d code) = 4%nat
  /\ exists max_camber p thickness,
       A = Airfoil.geometry max_camber p thickness N zt uni.
Proof.
  unfold Airfoil.init.
  destruct (Nat.eqb_spec (String.length (format_04d code)) 4) as [E|];
    [|discriminate].
  cbn [negb].
  destruct (py_int (substring 0 1 _)) as [d0|]; [|discriminate].
  destruct (py_int (substring 1 1 _)) as [d1|]; [|discriminate].
  destruct (py_int (substring 2 _ _)) as [d23|]; [|discriminate].
  intros [= <-]. split; [done|].
  by exists (0.01 * IZR d0), (0.1 * IZR d1), (0.01 * IZR d23).
Qed.

(** *** Decoding the designation *)

Ltac euclid := Z.to_euclidean_division_equations; lia.

(** For a number below [10^k], [k >= 1] units of fuel are enough. *)
Lemma digits_aux_fuel (k : nat) :
  forall (fuel : nat) (n : Z) (acc : string),
    (0 <= n < 10 ^ Z.of_nat (S k))%Z -> (S k <= fuel)%nat ->
    digits_aux fuel n acc = digits_aux (S k) n acc.
Proof.
  induction k as [|k IH]; intros fuel n acc Hn Hf.
  - destruct fuel as [|f]; [lia|]. cbn.
    assert (n / 10 = 0)%Z as -> by (apply Z.div_small; lia). done.
  - destruct fuel as [|f]; [lia|]. cbn [digits_aux].
    destruct (n / 10 =? 0)%Z; [done|].
    apply IH; [|lia].
    rewrite Nat2Z.inj_succ, Z.pow_succ_r in Hn by lia.
    split; [apply Z.div_pos; lia|].
    apply Z.div_lt_upper_bound; lia.
Qed.

Lemma decimal_small (n : Z) :
  (0 <= n < 10000)%Z -> decimal n = digits_aux 4 n "".
Proof.
  intros Hn. unfold decimal. destruct (Z.lt_ge_cases n 10) as [Hlt|Hge].
  - rewrite (digits_aux_fuel 0) by (cbn; lia).
    symmetry. apply (digits_aux_fuel 0); cbn; lia.
  - apply (digits_aux_fuel 3); [cbn; lia|lia].
Qed.

(** The four characters of the rendering of a code below 10000. *)
Lemma format_04d_small (n : Z) :
  (0 <= n < 10000)%Z ->
  format_04d n
  = String (digit_char (n / 1000))
      (String (digit_char (n / 100 mod 10))
         (String (digit_char (n / 10 mod 10))
            (String (digit_char (n mod 10)) ""))).
Proof.
  intros Hn. unfold format_04d.
  destruct (Z.ltb_spec n 0) as [|_]; [lia|].
  rewrite decimal_small by done. cbn [digits_aux].
  assert (E2 : (n / 10 / 10 = n / 100)%Z)
    by (rewrite Z.div_div by lia; reflexivity).
  assert (E3 : (n / 100 / 10 = n / 1000)%Z)
    by (rewrite Z.div_div by lia; reflexivity).
  rewrite !E2, !E3.
  destruct (Z.eqb_spec (n / 10) 0) as [H1|H1].
  { assert (n / 100 = 0)%Z as -> by euclid.
    assert (n / 1000 = 0)%Z as -> by euclid.
    rewrite H1. reflexivity. }
  destruct (Z.eqb_spec (n / 100) 0) as [H2|H2].
  { assert (n / 1000 = 0)%Z as -> by euclid.
    rewrite H2. reflexivity. }
  destruct (Z.eqb_spec (n / 1000) 0) as [H3|H3].
  { rewrite H3. reflexivity. }
  assert (Hm : ((n / 1000) mod 10 = n / 1000)%Z) by euclid.
  rewrite Hm. by destruct (n / 1000 / 10 =? 0)%Z.
Qed.

Lemma digit_value_digit_char (d : Z) :
  (0 <= d < 10)%Z -> digit_value (digit_char d) = d.
Proof.
  intros Hd. unfold digit_value, digit_char.
  rewrite nat_ascii_embedding by lia. lia.
Qed.

Lemma py_int_digit (d : Z) :
  (0 <= d < 10)%Z -> py_int (String (digit_char d) "") = Ok d.
Proof.
  intros Hd. rewrite py_int_digits; [|discriminate|].
  - cbn. by rewrite digit_value_digit_char.
  - cbn. by rewrite digit_char_is_digit.
Qed.

Lemma py_int_two_digits (c d : Z) :
  (0 <= c < 10)%Z -> (0 <= d < 10)%Z ->
  py_int (String (digit_char c) (String (digit_char d) ""))
  = Ok (10 * c + d)%Z.
Proof.
  intros Hc Hd. rewrite py_int_digits; [|discriminate|].
  - cbn [digits_value]. rewrite !digit_value_digit_char by done.
    f_equal; lia.
  - cbn. by rewrite !digit_char_is_digit.
Qed.

(** A code in [0, 9999] is read as: thousands digit = camber in percent,
    hundreds digit = camber position in tenths, last two digits =
    thickness in percent. *)
Lemma init_decodes (code : Z) (N : nat) (zt uni : bool) :
  (0 <= code < 10000)%Z ->
  Airfoil.init code N zt uni
  = Ok (Airfoil.geometry (0.01 * IZR (code / 1000))
          (0.1 * IZR (code / 100 mod 10)) (0.01 * IZR (code mod 100))
          N zt uni).
Proof.
  intros Hc. unfold Airfoil.init.
  rewrite (format_04d_small code Hc).
  cbn [String.length Nat.eqb negb Nat.sub substring].
  assert (0 <= code / 1000 < 10)%Z by euclid.
  pose proof (Z.mod_pos_bound (code / 100) 10 ltac:(lia)).
  pose proof (Z.mod_pos_bound (code / 10) 10 ltac:(lia)).
  pose proof (Z.mod_pos_bound code 10 ltac:(lia)).
  rewrite !py_int_digit, py_int_two_digits by done.
  do 3 f_equal.
  assert (10 * ((code / 10) mod 10) + code mod 10 = code mod 100)%Z as ->
    by euclid.
  done.
Qed.

(** Only the codes in [0, 9999] are accepted: longer ones fail the length
    check, negative ones either fail it or fail at [int("-")]. *)
Lemma init_Ok_range (code : Z) (N : nat) (zt uni : bool) (A : Airfoil.t) :
  Airfoil.init code N zt uni = Ok A -> (0 <= code < 10000)%Z.
Proof.
  intros H. pose proof (init_Ok_inv _ _ _ _ _ H) as [Hlen _].
  destruct (Z.ltb_spec code 0) as [Hneg|Hpos].
  - exfalso. revert H. unfold Airfoil.init, format_04d.
    rewrite (proj2 (Z.ltb_lt code 0) Hneg).
    destruct (negb _); [discriminate|].
    cbn [substring]. set (z := zeros _ _).
    assert (substring 0 0 z = EmptyString) as -> by (by destruct z).
    change (py_int (String "-" ""))
      with (@Raise Z (ValueError "invalid literal for int() with base 10")).
    discriminate.
  - split; [done|]. destruct (Z.lt_ge_cases code 10000) as [|Hge]; [done|].
    pose proof (length_format_04d_large code Hge). lia.
Qed.

(** C8: a code whose ["%04d"] rendering is not 4 characters long makes
    the constructor raise (a [ValueError], the code's error for an invalid
    designation); 99999 is such a code. *)
Theorem init_rejects_long_code (code : Z) (N : nat) (zt uni : bool) :
  String.length (format_04d code) <> 4%nat ->
  Airfoil.init code N zt uni
  = Raise (ValueError "NACA designation is more than 4 digits").
Proof.
  intros H. unfold Airfoil.init.
  by destruct (Nat.eqb_spec (String.length (format_04d code)) 4).
Qed.

Lemma init_rejects_long_code_witness :
  match py_int "99999" with
  | Ok code => Airfoil.init code 20 false false
  | Raise e => Raise e
  end = Raise (ValueError "NACA designation is more than 4 digits").
Proof.
  apply (init_rejects_long_code 99999 20 false false).
  vm_compute. lia.
Defined.

(** C10: for a non-negative code, the rendering is the decimal digits
    padded with zeros on the left to 4 characters; below 10000 it has
    exactly 4 characters and the constructor returns the airfoil whose
    parameters are read off the padded digits; the length check fails
    exactly from 10000 on. *)
Theorem code_below_10000_accepted (code : Z) (N : nat) (zt uni : bool) :
  (0 <= code)%Z ->
  format_04d code
    = zeros (4 - String.length (decimal code)) (decimal code)
  /\ ((code < 10000)%Z ->
      String.length (format_04d code) = 4%nat
      /\ Airfoil.init code N zt uni
         = Ok (Airfoil.geometry (0.01 * IZR (code / 1000))
                 (0.1 * IZR (code / 100 mod 10))
                 (0.01 * IZR (code mod 100)) N zt uni))
  /\ (String.length (format_04d code) <> 4%nat <-> (10000 <= code)%Z).
Proof.
  intros H0. split; [|split].
  - unfold format_04d. by destruct (Z.ltb_spec code 0) as [|_]; [lia|].
  - intros Hlt. split.
    + apply length_format_04d_small. lia.
    + apply init_decodes. lia.
  - split.
    + intros Hne. destruct (Z.lt_ge_cases code 10000) as [Hlt|]; [|done].
      destruct Hne. apply length_format_04d_small. lia.
    + intros Hge. pose proof (length_format_04d_large code Hge). lia.
Qed.

Lemma code_below_10000_accepted_witness :
  format_04d 12 = "0012"%string
  /\ ((12 < 10000)%Z ->
      String.length (format_04d 12) = 4%nat
      /\ Airfoil.init 12 50 false false
         = Ok (Airfoil.geometry (0.01 * 0) (0.1 * 0) (0.01 * 12)
                 50 false false))
  /\ (String.length (format_04d 12) <> 4%nat <-> (10000 <= 12)%Z).
Proof.
  apply (code_below_10000_accepted 12 50 false false). lia.
Defined.

(** *** The chordwise stations *)

Lemma length_linspace (a b : R) (N : nat) : length (linspace a b N) = N.
Proof.
  destruct N as [|[|N]]; [done|done|].
  unfold linspace. by rewrite length_fmap, length_seq.
Qed.

Lemma lookup_linspace (a b : R) (N i : nat) :
  (i < N)%nat ->
  exists v, linspace a b N !! i = Some v
            /\ v = a + INR i * ((b - a) / INR (N - 1)).
Proof.
  intros Hi. destruct N as [|[|N]]; [lia| |].
  - assert (i = 0%nat) as -> by lia. exists a. split; [done|]. cbn. ring.
  - unfold linspace. rewrite list_lookup_fmap, lookup_seq_lt by done.
    cbn [fmap option_fmap option_map Nat.add]. eauto.
Qed.

(** The value at position [i] of a [linspace] from [a] to [b > a]: it
    starts at [a], ends at [b] and grows with [i]. *)
Lemma linspace_first (a b : R) (N : nat) :
  a + INR 0 * ((b - a) / INR (N - 1)) = a.
Proof. cbn. ring. Qed.

Lemma linspace_last (a b : R) (N : nat) :
  (2 <= N)%nat -> a + INR (N - 1) * ((b - a) / INR (N - 1)) = b.
Proof. intros HN. field. apply not_0_INR. lia. Qed.

Lemma linspace_mono (a b : R) (N i j : nat) :
  a < b -> (i < j)%nat -> (j < N)%nat ->
  a + INR i * ((b - a) / INR (N - 1)) < a + INR j * ((b - a) / INR (N - 1)).
Proof.
  intros Hab Hij Hj.
  assert (0 < INR (N - 1)) by (apply lt_0_INR; lia).
  assert (0 < (b - a) / INR (N - 1)) by (apply Rdiv_lt_0_compat; lra).
  apply lt_INR in Hij. nra.
Qed.

Lemma linspace_range (a b : R) (N i : nat) :
  a < b -> (i < N)%nat ->
  a <= a + INR i * ((b - a) / INR (N - 1)) <= b.
Proof.
  intros Hab Hi. destruct (decide (N = 1%nat)) as [->|HN].
  - assert (i = 0%nat) as -> by lia. rewrite linspace_first. lra.
  - assert (Hi' : (i <= N - 1)%nat) by lia.
    assert (0 < INR (N - 1)) by (apply lt_0_INR; lia).
    apply le_INR in Hi'. pose proof (pos_INR i).
    assert (0 < (b - a) / INR (N - 1)) by (apply Rdiv_lt_0_compat; lra).
    split; [nra|].
    rewrite <- (linspace_last a b N) at 2 by lia. nra.
Qed.

Lemma length_stations (uni : bool) (N : nat) :
  length (Airfoil.stations uni N) = N.
Proof.
  unfold Airfoil.stations. destruct uni.
  - apply length_linspace.
  - by rewrite length_fmap, length_linspace.
Qed.

Lemma lookup_stations (uni : bool) (N i : nat) (v : R) :
  Airfoil.stations uni N !! i = Some v -> (i < N)%nat /\ v = station uni N i.
Proof.
  intros H. assert (Hi : (i < N)%nat).
  { apply lookup_lt_Some in H. by rewrite length_stations in H. }
  split; [done|]. unfold Airfoil.stations, station in *. destruct uni.
  - destruct (lookup_linspace 0 1 N i Hi) as (v' & Hv' & ->). congruence.
  - rewrite list_lookup_fmap in H.
    destruct (lookup_linspace 0 (0.5 * PI) N i Hi) as (v' & Hv' & ->).
    rewrite Hv' in H. cbn in H. congruence.
Qed.

Lemma station_first (uni : bool) (N : nat) : station uni N 0 = 0.
Proof.
  unfold station. destruct uni; rewrite linspace_first; [done|].
  rewrite cos_0. ring.
Qed.

Lemma station_last (uni : bool) (N : nat) :
  (2 <= N)%nat -> station uni N (N - 1) = 1.
Proof.
  intros HN. unfold station. destruct uni; rewrite linspace_last by done;
    [done|].
  replace (0.5 * PI) with (PI / 2) by lra. rewrite cos_PI2. ring.
Qed.

(** The stations grow strictly from the leading edge to the trailing
    edge. *)
Lemma station_mono (uni : bool) (N i j : nat) :
  (i < j)%nat -> (j < N)%nat -> station uni N i < station uni N j.
Proof.
  intros Hij Hj. unfold station. destruct uni.
  - apply linspace_mono; [lra|done|done].
  - pose proof PI_RGT_0 as Hpi.
    assert (Hlt : 0 < 0.5 * PI) by lra.
    pose proof (linspace_mono 0 (0.5 * PI) N i j Hlt Hij Hj) as Hm.
    pose proof (linspace_range 0 (0.5 * PI) N i Hlt ltac:(lia)) as Hri.
    pose proof (linspace_range 0 (0.5 * PI) N j Hlt Hj) as Hrj.
    assert (Hc := cos_decreasing_1 _ _ (proj1 Hri) ltac:(lra)
                    (proj1 Hrj) ltac:(lra) Hm).
    lra.
Qed.

Lemma station_pos (uni : bool) (N i : nat) :
  (0 < i)%nat -> (i < N)%nat -> 0 < station uni N i.
Proof.
  intros H0 Hi. rewrite <- (station_first uni N). by apply station_mono.
Qed.

(** *** The stacked contour *)

Lemma length_tail_R (a : list R) : length (tail a) = (length a - 1)%nat.
Proof. destruct a; cbn; lia. Qed.

Lemma length_from_last_down_to_1 (a : list R) :
  length (from_last_down_to_1 a) = (length a - 1)%nat.
Proof.
  unfold from_last_down_to_1. by rewrite length_reverse, length_tail_R.
Qed.

Lemma lookup_from_last_down_to_1 (a : list R) (i : nat) :
  (i < length a - 1)%nat ->
  from_last_down_to_1 a !! i = a !! (length a - 1 - i)%nat.
Proof.
  intros Hi. unfold from_last_down_to_1.
  rewrite reverse_lookup by (by rewrite length_tail_R).
  rewrite lookup_tail, length_tail_R. f_equal. lia.
Qed.

Section Geometry.

Variables (max_camber p thickness : R) (N : nat) (zt uni : bool).

Let G := Airfoil.geometry max_camber p thickness N zt uni.
Let x := Airfoil.stations uni N.
Let upper (xi : R) : R :=
  Airfoil.y_camber max_camber p xi + Airfoil.y_thick thickness zt xi.
Let lower (xi : R) : R :=
  Airfoil.y_camber max_camber p xi - Airfoil.y_thick thickness zt xi.

Lemma geometry_length :
  length (Airfoil._x G) = (2 * N - 1)%nat
  /\ length (Airfoil._y G) = (2 * N - 1)%nat.
Proof.
  unfold G, Airfoil.geometry. cbn [Airfoil._x Airfoil._y].
  rewrite !length_app, !length_zip_with, !length_from_last_down_to_1,
    !length_fmap, !length_stations. lia.
Qed.

(** The first [N - 1] points: the upper surface, stations taken from the
    last one down to the one at index 1. *)
Lemma geometry_upper (i : nat) (xi : R) :
  (i < N - 1)%nat -> x !! (N - 1 - i)%nat = Some xi ->
  Airfoil._x G !! i = Some xi /\ Airfoil._y G !! i = Some (upper xi).
Proof.
  intros Hi Hx. unfold G, Airfoil.geometry. cbn [Airfoil._x Airfoil._y].
  fold x. split.
  - rewrite lookup_app_l
      by (rewrite length_from_last_down_to_1; unfold x;
          rewrite length_stations; lia).
    rewrite lookup_from_last_down_to_1
      by (unfold x; rewrite length_stations; lia).
    unfold x at 1. by rewrite length_stations.
  - rewrite lookup_app_l
      by (rewrite length_zip_with, !length_from_last_down_to_1,
            !length_fmap; unfold x; rewrite length_stations; lia).
    rewrite lookup_zip_with.
    rewrite !lookup_from_last_down_to_1
      by (rewrite length_fmap; unfold x; rewrite length_stations; lia).
    rewrite !length_fmap, !list_lookup_fmap. unfold x at 1 3.
    rewrite length_stations, Hx. done.
Qed.

(** The last [N] points: the lower surface, stations in increasing
    order. *)
Lemma geometry_lower (i : nat) (xi : R) :
  x !! i = Some xi ->
  Airfoil._x G !! (N - 1 + i)%nat = Some xi
  /\ Airfoil._y G !! (N - 1 + i)%nat = Some (lower xi).
Proof.
  intros Hx. unfold G, Airfoil.geometry. cbn [Airfoil._x Airfoil._y].
  fold x. split.
  - rewrite lookup_app_r
      by (rewrite length_from_last_down_to_1; unfold x;
          rewrite length_stations; lia).
    rewrite length_from_last_down_to_1. unfold x at 1.
    rewrite length_stations. rewrite <- Hx. f_equal. lia.
  - rewrite lookup_app_r
      by (rewrite length_zip_with, !length_from_last_down_to_1,
            !length_fmap; unfold x; rewrite length_stations; lia).
    rewrite length_zip_with, !length_from_last_down_to_1, !length_fmap.
    unfold x at 1 2. rewrite length_stations.
    replace (N - 1 + i - (N - 1) `min` (N - 1))%nat with i by lia.
    rewrite lookup_zip_with, !list_lookup_fmap, Hx. done.
Qed.

(** Every index of the contour is in one of the two parts. *)
Lemma geometry_x_cases (i : nat) (v : R) :
  Airfoil._x G !! i = Some v ->
  ((i < N - 1)%nat /\ v = station uni N (N - 1 - i))
  \/ ((N - 1 <= i)%nat /\ (i - (N - 1) < N)%nat
      /\ v = station uni N (i - (N - 1))).
Proof.
  intros H. destruct (decide (i < N - 1)%nat) as [Hi|Hi].
  - left. split; [done|].
    assert (Hs : is_Some (x !! (N - 1 - i)%nat)).
    { apply lookup_lt_is_Some. unfold x. rewrite length_stations. lia. }
    destruct Hs as [xi Hxi].
    destruct (geometry_upper i xi Hi Hxi) as [Hx _].
    apply lookup_stations in Hxi as [_ ->]. congruence.
  - right. split; [lia|].
    pose proof (lookup_lt_Some _ _ _ H) as Hlen.
    rewrite (proj1 geometry_length) in Hlen.
    assert (Hs : is_Some (x !! (i - (N - 1))%nat)).
    { apply lookup_lt_is_Some. unfold x. rewrite length_stations. lia. }
    destruct Hs as [xi Hxi].
    destruct (geometry_lower _ xi Hxi) as [Hx _].
    replace (N - 1 + (i - (N - 1)))%nat with i in Hx by lia.
    apply lookup_stations in Hxi as [Hlt ->]. split; [done|]. congruence.
Qed.

(** The leading-edge station 0 occurs once, at index [N - 1]. *)
Lemma geometry_leading_edge_once (i : nat) :
  Airfoil._x G !! i = Some 0 -> i = (N - 1)%nat.
Proof.
  intros H. destruct (geometry_x_cases i 0 H) as [[Hi E]|(Hi & Hlt & E)].
  - pose proof (station_pos uni N (N - 1 - i) ltac:(lia) ltac:(lia)). lra.
  - destruct (decide (i - (N - 1) = 0)%nat) as [|Hne]; [lia|].
    pose proof (station_pos uni N (i - (N - 1)) ltac:(lia) Hlt). lra.
Qed.

End Geometry.

Lemma stations_lookup_lt (uni : bool) (N i : nat) :
  (i < N)%nat -> Airfoil.stations uni N !! i = Some (station uni N i).
Proof.
  intros Hi.
  destruct (lookup_lt_is_Some_2 (Airfoil.stations uni N) i) as [v Hv].
  { by rewrite length_stations. }
  by destruct (lookup_stations uni N i v Hv) as [_ <-].
Qed.

(** At the trailing edge ([x = 1]) the half thickness is zero with the
    closed-trailing-edge coefficient and [0.0105 * thickness] otherwise. *)
Lemma y_thick_trailing_edge (thickness : R) (zt : bool) :
  Airfoil.y_thick thickness zt 1
  = if zt then 0 else 0.0105 * thickness.
Proof.
  unfold Airfoil.y_thick, Airfoil.coefs, polyval.
  cbn [take firstn nth fold_left]. rewrite sqrt_1.
  destruct zt; lra.
Qed.

(** C7 (as the code has it): the contour of an airfoil with [N] stations
    has [2N - 1] points.  The first [N - 1] are the upper surface
    ([y_camber + y_thick]) at the stations from the last one (the trailing
    edge, [x = 1]) down to the one at index 1; the last [N] are the lower
    surface ([y_camber - y_thick]) at the stations from index 0 (the
    leading edge, [x = 0]) up to the last one.  The stations increase
    strictly, so the leading-edge point is the one at index [N - 1] and
    occurs only there: it is not duplicated at the join.  The first and the
    last point are the upper and lower trailing-edge points, which are
    [2 * y_thick 1] apart. *)
Theorem airfoil_contour (code : Z) (N : nat) (zt uni : bool) :
  (0 <= code < 10000)%Z ->
  let max_camber := 0.01 * IZR (code / 1000) in
  let p := 0.1 * IZR (code / 100 mod 10) in
  let thickness := 0.01 * IZR (code mod 100) in
  exists A,
    Airfoil.init code N zt uni = Ok A
    /\ length (Airfoil._x A) = (2 * N - 1)%nat
    /\ length (Airfoil._y A) = (2 * N - 1)%nat
    /\ (forall i, (i < N - 1)%nat ->
          Airfoil._x A !! i = Some (station uni N (N - 1 - i))
          /\ Airfoil._y A !! i
             = Some (Airfoil.y_camber max_camber p (station uni N (N - 1 - i))
                     + Airfoil.y_thick thickness zt
                         (station uni N (N - 1 - i))))
    /\ (forall i, (i < N)%nat ->
          Airfoil._x A !! (N - 1 + i)%nat = Some (station uni N i)
          /\ Airfoil._y A !! (N - 1 + i)%nat
             = Some (Airfoil.y_camber max_camber p (station uni N i)
                     - Airfoil.y_thick thickness zt (station uni N i)))
    /\ station uni N 0 = 0
    /\ ((2 <= N)%nat -> station uni N (N - 1) = 1)
    /\ (forall i j, (i < j)%nat -> (j < N)%nat ->
          station uni N i < station uni N j)
    /\ (forall i, Airfoil._x A !! i = Some 0 -> i = (N - 1)%nat)
    /\ ((2 <= N)%nat ->
        Airfoil._x A !! 0%nat = Some 1
        /\ Airfoil._x A !! (2 * N - 2)%nat = Some 1
        /\ Airfoil._y A !! 0%nat
           = Some (Airfoil.y_camber max_camber p 1
                   + (if zt then 0 else 0.0105 * thickness))
        /\ Airfoil._y A !! (2 * N - 2)%nat
           = Some (Airfoil.y_camber max_camber p 1
                   - (if zt then 0 else 0.0105 * thickness))).
Proof.
  intros Hc mc p th. eexists. split; [by apply init_decodes|].
  fold mc p th.
  split; [apply geometry_length|]. split; [apply geometry_length|].
  split; [|split; [|split; [|split; [|split; [|split]]]]].
  - intros i Hi. apply geometry_upper; [done|].
    apply stations_lookup_lt. lia.
  - intros i Hi. apply geometry_lower. by apply stations_lookup_lt.
  - apply station_first.
  - apply station_last.
  - intros i j. apply station_mono.
  - apply geometry_leading_edge_once.
  - intros HN.
    assert (Hlast : Airfoil.stations uni N !! (N - 1)%nat = Some 1).
    { rewrite stations_lookup_lt by lia. by rewrite station_last. }
    destruct (geometry_upper mc p th N zt uni 0 1 ltac:(lia)) as [Ux Uy].
    { by rewrite Nat.sub_0_r. }
    destruct (geometry_lower mc p th N zt uni (N - 1) 1 Hlast) as [Lx Ly].
    replace (N - 1 + (N - 1))%nat with (2 * N - 2)%nat in Lx, Ly by lia.
    rewrite y_thick_trailing_edge in Uy, Ly. done.
Qed.

Lemma airfoil_contour_witness :
  exists A,
    Airfoil.init 2412 20 false false = Ok A
    /\ length (Airfoil._x A) = 39%nat
    /\ Airfoil._x A !! 19%nat = Some (station false 20 0)
    /\ station false 20 0 = 0.
Proof.
  destruct (airfoil_contour 2412 20 false false ltac:(lia))
    as (A & HA & Hlx & _ & _ & Hlo & Hst & _).
  exists A. split; [exact HA|]. split; [exact Hlx|]. split; [|exact Hst].
  exact (proj1 (Hlo 0%nat ltac:(lia))).
Defined.

Lemma leading_edge_point_not_duplicated :
  exists A,
    Airfoil.init 2412 20 false false = Ok A
    /\ length (Airfoil._x A) = 39%nat
    /\ ~ (exists i, Airfoil._x A !! i = Some 0
                    /\ Airfoil._x A !! S i = Some 0)
    /\ Airfoil._y A !! 0%nat <> Airfoil._y A !! 38%nat.
Proof.
  eexists. split; [reflexivity|]. split; [apply geometry_length|]. split.
  - intros (i & H1 & H2).
    apply geometry_leading_edge_once in H1, H2. lia.
  - assert (Hlast : Airfoil.stations false 20 !! 19%nat = Some 1).
    { rewrite stations_lookup_lt by lia.
      pose proof (station_last false 20 ltac:(lia)) as E.
      change (20 - 1)%nat with 19%nat in E. by rewrite E. }
    destruct (geometry_upper (0.01 * 2) (0.1 * 4) (0.01 * 12) 20 false false
                0 1 ltac:(lia) Hlast) as [_ Uy].
    destruct (geometry_lower (0.01 * 2) (0.1 * 4) (0.01 * 12) 20 false false
                19 1 Hlast) as [_ Ly].
    rewrite y_thick_trailing_edge in Uy, Ly.
    change (Airfoil._y (Airfoil.geometry (0.01 * 2) (0.1 * 4) (0.01 * 12)
                          20 false false) !! 0%nat
            <> Airfoil._y (Airfoil.geometry (0.01 * 2) (0.1 * 4) (0.01 * 12)
                          20 false false) !! (20 - 1 + 19)%nat).
    rewrite Uy, Ly. intros [= E]. lra.
Qed.

(* ================================================================== *)
(** * Further properties *)
(* ================================================================== *)

(** ** Transformations as a group of rigid motions *)

Lemma rotation_of_0 : ET.rotation_of 0 = ((1, 0), (0, 1)).
Proof.
  unfold ET.rotation_of. cbn.
  replace (0 * PI / 180) with 0 by lra. rewrite cos_0, sin_0.
  repeat f_equal. ring.
Qed.

Lemma rotation_of_opp (a : R) :
  ET.rotation_of (- a) = transpose (ET.rotation_of a).
Proof.
  unfold ET.rotation_of, transpose. cbn.
  replace (- a * PI / 180) with (- (a * PI / 180)) by lra.
  rewrite cos_neg, sin_neg. repeat f_equal. ring.
Qed.

Lemma dot_identity (v : vec2) : dot ((1, 0), (0, 1)) v = v.
Proof. destruct v as [x y]. unfold dot. cbn. f_equal; ring. Qed.

Lemma dot_matmul (M N : mat2) (v : vec2) :
  dot (matmul M N) v = dot M (dot N v).
Proof. unfold dot, matmul. cbn. f_equal; ring. Qed.

Lemma dot_vadd (M : mat2) (u v : vec2) :
  dot M (vadd u v) = vadd (dot M u) (dot M v).
Proof. unfold dot, vadd. cbn. f_equal; ring. Qed.

Lemma vadd_assoc (u v w : vec2) : vadd (vadd u v) w = vadd u (vadd v w).
Proof. unfold vadd. cbn. f_equal; ring. Qed.

Lemma vadd_0_r (v : vec2) : vadd v (0, 0) = v.
Proof. destruct v. unfold vadd. cbn. f_equal; ring. Qed.

Lemma vadd_vopp_r (v : vec2) : vadd v (vopp v) = (0, 0).
Proof. unfold vadd, vopp. cbn. f_equal; ring. Qed.

Lemma transpose_rotation_orthogonal (a : R) (v : vec2) :
  dot (transpose (ET.rotation_of a)) (dot (ET.rotation_of a) v) = v.
Proof.
  destruct v as [x y]. unfold dot, transpose, ET.rotation_of. cbn.
  set (th := a * PI / 180).
  pose proof (sin2_cos2 th) as H. unfold Rsqr in H.
  f_equal.
  - transitivity ((sin th * sin th + cos th * cos th) * x); [ring|].
    rewrite H. ring.
  - transitivity ((sin th * sin th + cos th * cos th) * y); [ring|].
    rewrite H. ring.
Qed.

Lemma ET_eq (a a' : R) (d d' : vec2) :
  a = a' -> d = d' -> ET.init a d = ET.init a' d'.
Proof. by intros -> ->. Qed.

(** X1: composition is associative on transformations built by the
    constructor. *)
Theorem compose_assoc (a b c : R) (da db dc : vec2) :
  let A := ET.init a da in
  let B := ET.init b db in
  let C := ET.init c dc in
  ET.compose A (Some (ET.compose B (Some C)))
  = ET.compose (ET.compose A (Some B)) (Some C).
Proof.
  cbn zeta. unfold ET.compose, ET.angle, ET.displacement. cbn.
  apply ET_eq; [ring|].
  rewrite rotation_of_plus, dot_matmul, dot_vadd, vadd_assoc. done.
Qed.

(** X2: the transformation with angle 0 and displacement (0, 0) (what a
    [TransformedBody] is created with by default) is a left and right
    identity for [compose]. *)
Theorem compose_identity (a : R) (d : vec2) :
  let I := ET.init 0 (0, 0) in
  let T := ET.init a d in
  ET.compose I (Some T) = T /\ ET.compose T (Some I) = T.
Proof.
  cbn zeta. unfold ET.compose, ET.angle, ET.displacement. cbn. split.
  - apply ET_eq; [ring|]. by rewrite rotation_of_0, dot_identity, vadd_0_r.
  - apply ET_eq; [ring|]. unfold dot, vadd. destruct d. cbn. f_equal; ring.
Qed.

(** X3: [inverse] is an involution and also a left inverse: for
    [T = EuclideanTransformation(theta, d)], [T.inverse().inverse()] is [T]
    and [T.inverse().compose(T)] is the identity transformation. *)
Theorem inverse_involutive (theta : R) (d : vec2) :
  let T := ET.init theta d in
  ET.inverse (ET.inverse T) = T
  /\ ET.compose (ET.inverse T) (Some T) = ET.init 0 (0, 0).
Proof.
  cbn zeta. unfold ET.inverse, ET.compose, ET.angle, ET.displacement. cbn.
  split.
  - apply ET_eq; [ring|].
    rewrite rotation_of_opp. rewrite dot_vopp.
    replace (transpose (transpose (ET.rotation_of theta)))
      with (ET.rotation_of theta) by (by destruct (ET.rotation_of theta) as [[] []]).
    rewrite rotation_orthogonal. destruct d. unfold vopp. cbn. f_equal; ring.
  - apply ET_eq; [ring|]. rewrite rotation_of_opp. apply vadd_vopp_r.
Qed.

(** ** The class invariant *)

Lemma consistent_init (a : R) (d : vec2) : consistent (ET.init a d).
Proof. reflexivity. Qed.

Lemma consistent_set_angle (T : ET.t) (v : R) : consistent (ET.set_angle T v).
Proof. reflexivity. Qed.

Lemma consistent_set_displacement (T : ET.t) (v : vec2) :
  consistent T -> consistent (ET.set_displacement T v).
Proof. by intros H. Qed.

Lemma consistent_compose (T : ET.t) (other : option ET.t) :
  consistent T -> consistent (ET.compose T other).
Proof. intros H. by destruct other. Qed.

Lemma all_consistent_insert (h : list object) (l p b : loc) tr cls :
  all_consistent h -> consistent tr ->
  all_consistent (<[l := TransformedBody p b tr cls]> h).
Proof.
  intros Hall Htr l' p' b' tr' cls' H.
  destruct (decide (l = l')) as [->|Hne].
  - destruct (decide (l' < length h)%nat) as [Hlt|Hge].
    + rewrite list_lookup_insert_eq in H by done. by injection H as <- <- <- <-.
    + rewrite list_insert_ge in H by lia. by eapply Hall.
  - rewrite list_lookup_insert_ne in H by done. by eapply Hall.
Qed.

Lemma all_consistent_set_angle (h : list object) (l : loc) (v : R) h' :
  all_consistent h -> set_angle h l v = Some h' -> all_consistent h'.
Proof.
  intros Hall S. apply set_angle_lookup in S as (p & b & tr & cls & _ & ->).
  apply all_consistent_insert; [done|]. apply consistent_set_angle.
Qed.

Lemma all_consistent_set_displacement (h : list object) (l : loc)
    (v : vec2) h' :
  all_consistent h -> set_displacement h l v = Some h' -> all_consistent h'.
Proof.
  intros Hall S.
  apply set_displacement_lookup in S as (p & b & tr & cls & H & ->).
  apply all_consistent_insert; [done|].
  apply consistent_set_displacement. by eapply Hall.
Qed.

Lemma all_consistent_get_transformation (fuel : nat) :
  forall (h : list object) (l : loc) h' r,
    all_consistent h -> get_transformation fuel h l = Some (h', r) ->
    all_consistent h' /\ forall T, r = Some T -> consistent T.
Proof.
  induction fuel as [|f IH]; intros h l h' r Hall; [done|]. cbn.
  destruct (h !! l) as [[t|p b tr cls]|] eqn:H; try done.
  - intros [= <- <-]. split; [done|]. discriminate.
  - intros G. apply bind_Some in G as (h1 & G1 & G).
    apply bind_Some in G as ([h2 other] & G2 & G).
    apply bind_Some in G as (tr' & Htr & [= <- <-]).
    assert (Hall1 : all_consistent h1).
    { destruct cls as [|a w ph|d w ph].
      - by injection G1 as <-.
      - apply bind_Some in G1 as (t & _ & G1).
        by eapply all_consistent_set_angle.
      - apply bind_Some in G1 as (t & _ & G1).
        by eapply all_consistent_set_displacement. }
    destruct (IH _ _ _ _ Hall1 G2) as [Hall2 _]. split; [done|].
    intros T [= <-]. apply consistent_compose.
    unfold transformation_of in Htr.
    destruct (h2 !! l) as [[|p' b' tr'' cls']|] eqn:H2; try done.
    injection Htr as ->. by eapply Hall2.
Qed.

Lemma reachable_all_consistent (h : list object) :
  reachable h -> all_consistent h.
Proof.
  induction 1 as [|h _ IH|h body a d cls h' l _ IH D|h fuel l v h' _ IH S
                 |h l v h' _ IH S|h l v h' _ IH S|h fuel l h' r _ IH G].
  - intros l p b tr cls H. by rewrite lookup_nil in H.
  - intros l p b tr cls H. cbn in H.
    apply lookup_snoc_Some in H as [[_ H]|[_ H]]; [by eapply IH|done].
  - unfold decorate in D. apply bind_Some in D as (b & _ & [= <- <-]).
    intros l' p' b' tr' cls' H.
    apply lookup_snoc_Some in H as [[_ H]|[_ [= <- <- <- <-]]];
      [by eapply IH|apply consistent_init].
  - apply set_time_inv in S as (r & t & Hr & ->).
    intros l' p' b' tr' cls' H.
    destruct (decide (r = l')) as [->|Hne].
    + rewrite list_lookup_insert_eq in H by (by eapply lookup_lt_Some). done.
    + rewrite list_lookup_insert_ne in H by done. by eapply IH.
  - by eapply all_consistent_set_angle.
  - by eapply all_consistent_set_displacement.
  - by destruct (all_consistent_get_transformation _ _ _ _ _ IH G).
Qed.

(** X4: in every store a program can build, the rotation matrix of every
    decorator's transformation is the one of its angle, and so is the
    rotation matrix of every transformation [get_transformation] returns. *)
Theorem rotation_matrix_in_sync (h : list object) :
  reachable h ->
  (forall l p b tr cls,
     h !! l = Some (TransformedBody p b tr cls) ->
     ET._R tr = ET.rotation_of (ET._angle tr))
  /\ (forall fuel l h' T,
        get_transformation fuel h l = Some (h', Some T) ->
        ET._R T = ET.rotation_of (ET._angle T)).
Proof.
  intros Hr. pose proof (reachable_all_consistent h Hr) as Hall. split.
  - exact Hall.
  - intros fuel l h' T G.
    destruct (all_consistent_get_transformation _ _ _ _ _ Hall G) as [_ HT].
    by apply HT.
Qed.

Lemma rotation_matrix_in_sync_witness :
  (forall l p b tr cls,
     example_chain !! l = Some (TransformedBody p b tr cls) ->
     ET._R tr = ET.rotation_of (ET._angle tr))
  /\ (forall fuel l h' T,
        get_transformation fuel example_chain l = Some (h', Some T) ->
        ET._R T = ET.rotation_of (ET._angle T)).
Proof.
  apply (rotation_matrix_in_sync example_chain). exact example_chain_reachable.
Defined.

(** ** Mapping points *)

Lemma any2_false (v : vec2) : any2 v = false -> v = (0, 0).
Proof.
  destruct v as [x y]. unfold any2. cbn.
  destruct (Req_dec_T x 0), (Req_dec_T y 0); try discriminate. by subst.
Qed.

(** With the invariant, the two shortcuts of [xform_position] do not
    change its result. *)
Lemma xform_vector (T : ET.t) (v : vec2) :
  consistent T -> xform_position T (Vector v) = Vector (rigid T v).
Proof.
  intros HT. unfold xform_position, rigid.
  destruct (Req_dec_T (ET._angle T) 0) as [E|_].
  - rewrite HT, E, rotation_of_0, dot_identity.
    destruct (any2 (ET._displacement T)) eqn:A; [done|].
    apply any2_false in A. by rewrite A, vadd_0_r.
  - destruct (any2 (ET._displacement T)) eqn:A; [done|].
    apply any2_false in A. by rewrite A, vadd_0_r.
Qed.

Lemma xform_columns (T : ET.t) (cols : list vec2) :
  consistent T -> xform_position T (Columns cols) = Columns (rigid T <$> cols).
Proof.
  intros HT. unfold xform_position, rigid.
  destruct (Req_dec_T (ET._angle T) 0) as [E|_].
  - rewrite HT, E, rotation_of_0.
    destruct (any2 (ET._displacement T)) eqn:A.
    + f_equal. apply list_fmap_ext. intros i c _. by rewrite dot_identity.
    + apply any2_false in A. rewrite A. f_equal.
      rewrite <- (list_fmap_id cols) at 1. apply list_fmap_ext.
      intros i c _. by rewrite dot_identity, vadd_0_r.
  - destruct (any2 (ET._displacement T)) eqn:A.
    + f_equal. by rewrite <- list_fmap_compose.
    + apply any2_false in A. rewrite A. f_equal. apply list_fmap_ext.
      intros i c _. by rewrite vadd_0_r.
Qed.

Lemma xform_rigid (T : ET.t) (pts : points) :
  consistent T ->
  xform_position T pts
  = match pts with
    | Vector v => Vector (rigid T v)
    | Columns cols => Columns (rigid T <$> cols)
    end.
Proof. destruct pts; [apply xform_vector|apply xform_columns]. Qed.

(** X5: for a transformation built by the constructor, [xform_position]
    maps every point [v] to [R v + displacement], whether or not the angle
    or the displacement is zero; an array is mapped column by column. *)
Theorem xform_position_spec (a : R) (d : vec2) (v : vec2)
    (cols : list vec2) :
  let T := ET.init a d in
  xform_position T (Vector v)
    = Vector (vadd (dot (ET.rotation_of a) v) d)
  /\ xform_position T (Columns cols)
    = Columns ((fun c => vadd (dot (ET.rotation_of a) c) d) <$> cols).
Proof.
  cbn zeta. split.
  - by rewrite xform_vector by apply consistent_init.
  - by rewrite xform_columns by apply consistent_init.
Qed.

Lemma rigid_compose (a b : R) (da db : vec2) (v : vec2) :
  rigid (ET.compose (ET.init a da) (Some (ET.init b db))) v
  = rigid (ET.init a da) (rigid (ET.init b db) v).
Proof.
  unfold rigid, ET.compose, ET.angle, ET.displacement. cbn.
  by rewrite rotation_of_plus, dot_matmul, dot_vadd, vadd_assoc.
Qed.

(** X6: mapping points with [A.compose(B)] is mapping them with [B] and
    then with [A]. *)
Theorem xform_position_compose (a b : R) (da db : vec2) (pts : points) :
  let A := ET.init a da in
  let B := ET.init b db in
  xform_position (ET.compose A (Some B)) pts
  = xform_position A (xform_position B pts).
Proof.
  cbn zeta.
  rewrite (xform_rigid (ET.compose _ _)) by (by apply consistent_compose).
  rewrite (xform_rigid (ET.init b db)) by apply consistent_init.
  destruct pts as [v|cols].
  - rewrite xform_vector by apply consistent_init. by rewrite rigid_compose.
  - rewrite xform_columns by apply consistent_init. f_equal.
    rewrite <- list_fmap_compose. apply list_fmap_ext.
    intros i c _. apply rigid_compose.
Qed.

Lemma rigid_inverse (a : R) (d : vec2) (v : vec2) :
  rigid (ET.inverse (ET.init a d)) (rigid (ET.init a d) v) = v.
Proof.
  unfold rigid, ET.inverse. cbn.
  rewrite rotation_of_opp, dot_vadd, transpose_rotation_orthogonal.
  rewrite vadd_assoc, vadd_vopp_r. apply vadd_0_r.
Qed.

(** X7: mapping points with [T] and then with [T.inverse()] gives the
    points back. *)
Theorem xform_position_inverse (a : R) (d : vec2) (pts : points) :
  let T := ET.init a d in
  xform_position (ET.inverse T) (xform_position T pts) = pts.
Proof.
  cbn zeta. rewrite (xform_rigid (ET.init a d)) by apply consistent_init.
  destruct pts as [v|cols].
  - rewrite xform_vector by apply consistent_init. by rewrite rigid_inverse.
  - rewrite xform_columns by apply consistent_init. f_equal.
    rewrite <- list_fmap_compose. rewrite <- (list_fmap_id cols) at 2.
    apply list_fmap_ext. intros i c _. apply rigid_inverse.
Qed.

Lemma rotation_norm (a : R) (x y : R) :
  norm2 (fst (dot (ET.rotation_of a) (x, y)))
        (snd (dot (ET.rotation_of a) (x, y)))
  = norm2 x y.
Proof.
  unfold norm2, dot, ET.rotation_of. cbn. f_equal.
  set (th := a * PI / 180).
  pose proof (sin2_cos2 th) as H. unfold Rsqr in H.
  transitivity ((sin th * sin th + cos th * cos th) * (x * x + y * y));
    [ring|]. rewrite H. ring.
Qed.

(** X8: [xform_position] is a rigid motion: it keeps the distance between
    any two points. *)
Theorem xform_position_isometry (a : R) (d : vec2) (u v : vec2) :
  let T := ET.init a d in
  exists u' v',
    xform_position T (Vector u) = Vector u'
    /\ xform_position T (Vector v) = Vector v'
    /\ norm2 (fst u' - fst v') (snd u' - snd v')
       = norm2 (fst u - fst v) (snd u - snd v).
Proof.
  cbn zeta. exists (rigid (ET.init a d) u), (rigid (ET.init a d) v).
  split; [by apply xform_vector|]. split; [by apply xform_vector|].
  rewrite <- (rotation_norm a (fst u - fst v) (snd u - snd v)).
  destruct u as [ux uy], v as [vx vy], d as [dx dy].
  unfold rigid, vadd, dot. cbn. f_equal; ring.
Qed.

(** ** get_transformation, called again *)

Lemma get_transformation_again (fuel : nat) :
  forall (h : list object) (l : loc) h' r,
    wf h -> get_transformation fuel h l = Some (h', r) ->
    get_transformation fuel h' l = Some (h', r).
Proof.
  induction fuel as [|f IH]; intros h l h' r W; [done|]. cbn.
  destruct (h !! l) as [[t|p b tr cls]|] eqn:H; try done.
  - intros [= <- <-]. by rewrite H.
  - intros G. apply bind_Some in G as (h1 & G1 & G).
    apply bind_Some in G as ([h2 other] & G2 & G).
    apply bind_Some in G as (tr' & Htr & [= <- <-]).
    destruct (W _ _ _ _ _ H) as (Hlt & _).
    assert (Hl : (l < length h)%nat) by (by eapply lookup_lt_Some).
    (* the first step, and what it leaves at [l] *)
    assert (S1 : skel <$> h1 = skel <$> h
                 /\ exists tr1, h1 !! l = Some (TransformedBody p b tr1 cls)
                   /\ match cls with
                      | Plain => True
                      | Pitching a w ph =>
                          exists t, time f h l = Some t
                            /\ tr1 = ET.set_angle tr (a * sin (w * t + ph))
                      | Heaving d w ph =>
                          exists t, time f h l = Some t
                            /\ tr1 = ET.set_displacement tr
                                       (vscale d (sin (w * t + ph)))
                      end).
    { destruct cls as [|a w ph|d w ph].
      - injection G1 as <-. eauto.
      - apply bind_Some in G1 as (t & Ht & G1). split.
        + by eapply set_angle_skel.
        + unfold set_angle in G1. rewrite H in G1. injection G1 as <-.
          eexists. split; [by apply list_lookup_insert_eq|eauto].
      - apply bind_Some in G1 as (t & Ht & G1). split.
        + by eapply set_displacement_skel.
        + unfold set_displacement in G1. rewrite H in G1. injection G1 as <-.
          eexists. split; [by apply list_lookup_insert_eq|eauto]. }
    destruct S1 as (E1 & tr1 & H1 & Hcls).
    assert (W1 : wf h1) by (eapply skel_wf; [|exact W]; done).
    pose proof (get_transformation_skel f h1 p h2 other G2) as E2.
    pose proof (get_transformation_frame f h1 p h2 other W1 G2 l Hlt) as F.
    rewrite H1 in F. rewrite F.
    assert (E : skel <$> h2 = skel <$> h) by congruence.
    assert (G1' : match cls with
                  | Plain => Some h2
                  | Pitching a w ph =>
                      t ← time f h2 l; set_angle h2 l (a * sin (w * t + ph))
                  | Heaving d w ph =>
                      t ← time f h2 l;
                      set_displacement h2 l (vscale d (sin (w * t + ph)))
                  end = Some h2).
    { destruct cls as [|a w ph|d w ph]; [done| |].
      - destruct Hcls as (t & Ht & ->).
        rewrite (skel_time h2 h f l E), Ht. cbn.
        unfold set_angle. rewrite F. f_equal. by apply list_insert_id.
      - destruct Hcls as (t & Ht & ->).
        rewrite (skel_time h2 h f l E), Ht. cbn.
        unfold set_displacement. rewrite F. f_equal. by apply list_insert_id. }
    rewrite G1'. cbn. rewrite (IH _ _ _ _ W1 G2). cbn. rewrite Htr. done.
Qed.

(** X9: [get_transformation] is idempotent: it returns, and a second call
    right after the first returns the same transformation and leaves the
    store as the first call left it. *)
Theorem get_transformation_idempotent (h : list object) (l : loc)
    (fuel : nat) :
  reachable h -> (l < length h)%nat -> (l + 2 <= fuel)%nat ->
  exists h' r,
    get_transformation fuel h l = Some (h', r)
    /\ get_transformation fuel h' l = Some (h', r).
Proof.
  intros Hr Hl Hf. pose proof (reachable_wf h Hr) as W.
  destruct (get_transformation_total fuel h l W Hl Hf) as (h' & r & G).
  exists h', r. split; [done|]. by eapply get_transformation_again.
Qed.

Lemma get_transformation_idempotent_witness :
  exists h' r,
    get_transformation 5 example_chain 3 = Some (h', r)
    /\ get_transformation 5 h' 3 = Some (h', r).
Proof.
  apply (get_transformation_idempotent example_chain 3 5).
  - exact example_chain_reachable.
  - cbn. lia.
  - lia.
Defined.

(** X10: [get_transformation] only ever assigns angles and displacements:
    it creates no object, and changes no [time], no [_parent] and no
    [_body]. *)
Theorem get_transformation_keeps_time (h : list object) (l : loc)
    (fuel : nat) :
  reachable h -> (l < length h)%nat -> (l + 2 <= fuel)%nat ->
  exists h' r,
    get_transformation fuel h l = Some (h', r)
    /\ length h' = length h
    /\ (forall l' fuel', time fuel' h' l' = time fuel' h l')
    /\ (forall l', get_body h' l' = get_body h l')
    /\ (forall root l', in_chain h root l' -> in_chain h' root l').
Proof.
  intros Hr Hl Hf. pose proof (reachable_wf h Hr) as W.
  destruct (get_transformation_total fuel h l W Hl Hf) as (h' & r & G).
  pose proof (get_transformation_skel fuel h l h' r G) as E.
  exists h', r. split; [done|]. split; [|split; [|split]].
  - rewrite <- (length_fmap skel h'), E. apply length_fmap.
  - intros l' fuel'. by apply skel_time.
  - intros l'. by apply skel_get_body.
  - intros root l'. induction 1 as [t Ht|l0 p b tr cls Hl0 _ IH].
    + apply chain_root with t. eapply skel_Body; [symmetry; exact E|done].
    + destruct (skel_TransformedBody h h' l0 p b tr cls (eq_sym E) Hl0)
        as [tr' H'].
      by eapply chain_decorator.
Qed.

Lemma get_transformation_keeps_time_witness :
  exists h' r,
    get_transformation 5 example_chain 3 = Some (h', r)
    /\ length h' = length example_chain
    /\ (forall l' fuel', time fuel' h' l' = time fuel' example_chain l')
    /\ (forall l', get_body h' l' = get_body example_chain l')
    /\ (forall root l',
          in_chain example_chain root l' -> in_chain h' root l').
Proof.
  apply (get_transformation_keeps_time example_chain 3 5).
  - exact example_chain_reachable.
  - cbn. lia.
  - lia.
Defined.

(** ** Motions *)

(** Create a decorator over an existing object and assign its [time]. *)
Lemma decorate_then_set_time (h : list object) (body : loc) (a : R)
    (d : vec2) (cls : motion) (t : R) (fuel : nat) :
  wf h -> (body < length h)%nat -> (2 <= fuel)%nat ->
  exists h1 h2 b,
    decorate h body a d cls = Some (h1, length h)
    /\ set_time fuel h1 (length h) t = Some h2
    /\ wf h2
    /\ h2 !! length h = Some (TransformedBody body b (ET.init a d) cls)
    /\ h2 !! b = Some (Body t).
Proof.
  intros W Hbody Hf.
  destruct (lookup_lt_is_Some_2 h body Hbody) as [o Ho].
  assert (Hb : exists b, get_body h body = Some b).
  { unfold get_body. rewrite Ho. destruct o; eauto. }
  destruct Hb as [b Hb].
  set (h1 := h ++ [TransformedBody body b (ET.init a d) cls]).
  assert (D : decorate h body a d cls = Some (h1, length h)).
  { unfold decorate. rewrite Hb. done. }
  destruct (wf_decorate _ _ _ _ _ _ _ W D) as (W1 & _ & _).
  assert (H1 : h1 !! length h
               = Some (TransformedBody body b (ET.init a d) cls)).
  { unfold h1. by rewrite list_lookup_middle. }
  assert (Hb1 : get_body h1 (length h) = Some b)
    by (unfold get_body; by rewrite H1).
  destruct (get_body_is_Body h1 _ b W1 Hb1) as [t0 Ht0].
  pose proof (set_time_get_body h1 fuel _ b t W1 Hb1 Hf) as S.
  exists h1, (<[b := Body t]> h1), b.
  split; [done|]. split; [done|]. split; [by eapply wf_insert_Body|].
  split.
  - rewrite list_lookup_insert_ne; [done|]. congruence.
  - apply list_lookup_insert_eq. by eapply lookup_lt_Some.
Qed.

Lemma get_transformation_Heaving (h : list object) (l p b : loc) tr
    (d : vec2) (w ph t : R) (fuel : nat) :
  wf h ->
  h !! l = Some (TransformedBody p b tr (Heaving d w ph)) ->
  h !! b = Some (Body t) ->
  (l + 2 <= fuel)%nat ->
  exists h' T,
    get_transformation fuel h l = Some (h', Some T)
    /\ displacement h' l = Some (vscale d (sin (w * t + ph)))
    /\ angle h' l = Some (ET.angle tr).
Proof.
  intros W H Hb Hf.
  assert (Hl : (l < length h)%nat) by (by eapply lookup_lt_Some).
  destruct (get_transformation_total fuel h l W Hl Hf) as (h' & r & G).
  destruct fuel as [|f]; [lia|]. cbn in G. rewrite H in G.
  destruct (W _ _ _ _ _ H) as (Hlt & _).
  destruct (decorator_time h l p b _ _ f W H ltac:(lia)) as (t' & Hb' & Ht).
  assert (t' = t) as -> by congruence.
  rewrite Ht in G. cbn in G. unfold set_displacement in G. rewrite H in G.
  cbn in G.
  set (h1 := <[l := _]> h) in G.
  apply bind_Some in G as ([h2 other] & G2 & G).
  apply bind_Some in G as (tr' & Htr & [= <- <-]).
  assert (W1 : wf h1) by (eapply skel_wf; [|exact W]; symmetry;
                          by eapply skel_insert).
  pose proof (get_transformation_frame f h1 p h2 other W1 G2 l Hlt) as F.
  unfold h1 in F. rewrite list_lookup_insert_eq in F by done.
  exists h2, (ET.compose tr' other). split; [|split].
  - cbn. rewrite H, Ht. cbn. unfold set_displacement. rewrite H. cbn.
    fold h1. rewrite G2. cbn. rewrite Htr. done.
  - unfold displacement, transformation_of. rewrite F. done.
  - unfold angle, transformation_of. rewrite F. done.
Qed.

(** X11: a [Heaving] decorator created with amplitude vector [d],
    frequency [w] and phase [phase] (in degrees), once its [time] is [t],
    has after [get_transformation] the displacement
    [d * sin (w * t + phase * pi / 180)] and still the angle 0. *)
Theorem heaving_displacement (h : list object) (body : loc) (d : vec2)
    (w phase t : R) (fuel : nat) :
  reachable h -> (body < length h)%nat -> (length h + 2 <= fuel)%nat ->
  exists h1 l h2 h3 T,
    Heaving_init h body d w phase = Some (h1, l)
    /\ set_time fuel h1 l t = Some h2
    /\ get_transformation fuel h2 l = Some (h3, Some T)
    /\ displacement h3 l
       = Some (vscale d (sin (w * t + phase * PI / 180)))
    /\ angle h3 l = Some 0.
Proof.
  intros Hr Hbody Hf. pose proof (reachable_wf h Hr) as W.
  destruct (decorate_then_set_time h body 0 (0, 0)
              (Heaving d w (phase * PI / 180)) t fuel W Hbody ltac:(lia))
    as (h1 & h2 & b & D & S & W2 & H2 & H2b).
  destruct (get_transformation_Heaving h2 _ body b _ d w _ t fuel
              W2 H2 H2b ltac:(lia)) as (h3 & T & G & Hd & Ha).
  by exists h1, (length h), h2, h3, T.
Qed.

Lemma heaving_displacement_witness :
  exists h1 l h2 h3 T,
    Heaving_init example_chain 3 (0, 1) 2 90 = Some (h1, l)
    /\ set_time 6 h1 l 0.5 = Some h2
    /\ get_transformation 6 h2 l = Some (h3, Some T)
    /\ displacement h3 l
       = Some (vscale (0, 1) (sin (2 * 0.5 + 90 * PI / 180)))
    /\ angle h3 l = Some 0.
Proof.
  apply (heaving_displacement example_chain 3 (0, 1) 2 90 0.5 6).
  - exact example_chain_reachable.
  - cbn. lia.
  - cbn. lia.
Defined.

(** X12: a [Pitching] decorator created with a phase given in degrees
    pitches with that phase converted to radians: after
    [get_transformation] at time [t] its angle is
    [A * sin (w * t + phase * pi / 180)], and its displacement stays
    (0, 0). *)
Theorem pitching_phase (h : list object) (body : loc) (A w phase t : R)
    (fuel : nat) :
  reachable h -> (body < length h)%nat -> (length h + 2 <= fuel)%nat ->
  exists h1 l h2 h3 T,
    Pitching_init h body A w phase = Some (h1, l)
    /\ set_time fuel h1 l t = Some h2
    /\ get_transformation fuel h2 l = Some (h3, Some T)
    /\ angle h3 l = Some (A * sin (w * t + phase * PI / 180))
    /\ displacement h3 l = Some (0, 0).
Proof.
  intros Hr Hbody Hf. pose proof (reachable_wf h Hr) as W.
  destruct (decorate_then_set_time h body 0 (0, 0)
              (Pitching A w (phase * PI / 180)) t fuel W Hbody ltac:(lia))
    as (h1 & h2 & b & D & S & W2 & H2 & H2b).
  destruct (get_transformation_Pitching h2 _ body b _ A w _ t fuel
              W2 H2 H2b ltac:(lia)) as (h3 & T & G & Ha).
  exists h1, (length h), h2, h3, T. repeat split; try done.
  (* the displacement is untouched *)
  assert (Hl : (length h < length h2)%nat) by (by eapply lookup_lt_Some).
  destruct fuel as [|f]; [lia|]. cbn in G. rewrite H2 in G.
  destruct (decorator_time h2 _ body b _ _ f W2 H2 ltac:(lia))
    as (t' & _ & Ht).
  rewrite Ht in G. cbn in G. unfold set_angle in G. rewrite H2 in G.
  cbn in G. set (h2' := <[length h := _]> h2) in G.
  apply bind_Some in G as ([h3' other] & G2 & G).
  apply bind_Some in G as (tr' & Htr & [= <- <-]).
  assert (W2' : wf h2') by (eapply skel_wf; [|exact W2]; symmetry;
                            by eapply skel_insert).
  destruct (W2 _ _ _ _ _ H2) as (Hlt & _).
  pose proof (get_transformation_frame f h2' body h3' other W2' G2 _ Hlt)
    as F.
  unfold h2' in F. rewrite list_lookup_insert_eq in F by done.
  unfold displacement, transformation_of. rewrite F. done.
Qed.

Lemma pitching_phase_witness :
  exists h1 l h2 h3 T,
    Pitching_init example_chain 3 2 3 90 = Some (h1, l)
    /\ set_time 6 h1 l 0.5 = Some h2
    /\ get_transformation 6 h2 l = Some (h3, Some T)
    /\ angle h3 l = Some (2 * sin (3 * 0.5 + 90 * PI / 180))
    /\ displacement h3 l = Some (0, 0).
Proof.
  apply (pitching_phase example_chain 3 2 3 90 0.5 6).
  - exact example_chain_reachable.
  - cbn. lia.
  - cbn. lia.
Defined.

(** ** The accumulated transformation *)

Lemma get_transformation_angle (fuel : nat) :
  forall (h : list object) (l : loc) h' r,
    wf h -> get_transformation fuel h l = Some (h', r) ->
    exists s, chain_angle h' l s /\ from_option ET.angle 0 r = s.
Proof.
  induction fuel as [|f IH]; intros h l h' r W; [done|]. cbn.
  destruct (h !! l) as [[t|p b tr cls]|] eqn:H; try done.
  - intros [= <- <-]. exists 0. split; [by eapply chain_angle_Body|done].
  - intros G. apply bind_Some in G as (h1 & G1 & G).
    apply bind_Some in G as ([h2 other] & G2 & G).
    apply bind_Some in G as (tr' & Htr & [= <- <-]).
    assert (E1 : skel <$> h1 = skel <$> h).
    { destruct cls as [|a w ph|d w ph].
      - by injection G1 as <-.
      - apply bind_Some in G1 as (t & _ & G1). by eapply set_angle_skel.
      - apply bind_Some in G1 as (t & _ & G1).
        by eapply set_displacement_skel. }
    assert (W1 : wf h1) by (eapply skel_wf; [|exact W]; done).
    destruct (IH _ _ _ _ W1 G2) as (s & Cs & Es).
    pose proof (get_transformation_skel f h1 p h2 other G2) as E2.
    unfold transformation_of in Htr.
    destruct (h2 !! l) as [[|p' b' tr'' cls']|] eqn:H2; try done.
    injection Htr as ->.
    assert (E : skel <$> h2 = skel <$> h) by congruence.
    destruct (skel_TransformedBody h h2 l p b tr cls (eq_sym E) H)
      as [tr2 H2'].
    assert (p' = p /\ tr2 = tr') as [-> ->] by (split; congruence).
    exists (ET.angle tr' + s). split.
    + eapply chain_angle_TransformedBody; [exact H2|exact Cs].
    + destruct other as [o|]; cbn in *.
      * unfold ET.angle at 1. cbn. by rewrite <- Es.
      * rewrite <- Es. unfold ET.angle. ring.
Qed.

(** X13: the angle of the transformation [get_transformation] returns is
    the sum of the angles that the decorators from this one down to the
    root have after the call (0 for a root body, which returns [None]). *)
Theorem accumulated_angle (h : list object) (l : loc) (fuel : nat) :
  reachable h -> (l < length h)%nat -> (l + 2 <= fuel)%nat ->
  exists h' r s,
    get_transformation fuel h l = Some (h', r)
    /\ chain_angle h' l s
    /\ from_option ET.angle 0 r = s.
Proof.
  intros Hr Hl Hf. pose proof (reachable_wf h Hr) as W.
  destruct (get_transformation_total fuel h l W Hl Hf) as (h' & r & G).
  destruct (get_transformation_angle fuel h l h' r W G) as (s & Cs & Es).
  by exists h', r, s.
Qed.

Lemma accumulated_angle_witness :
  exists h' r s,
    get_transformation 5 example_chain 3 = Some (h', r)
    /\ chain_angle h' 3 s
    /\ from_option ET.angle 0 r = s.
Proof.
  apply (accumulated_angle example_chain 3 5).
  - exact example_chain_reachable.
  - cbn. lia.
  - lia.
Defined.

(** ** Boundary points of a decorated body *)

Lemma get_points_root (shapes : loc -> option (list R * list R))
    (h : list object) (root : loc) (t : R) pts (fuel : nat) (bf : bool) :
  h !! root = Some (Body t) -> shapes root = Some pts -> (1 <= fuel)%nat ->
  get_points shapes fuel h root bf = Some (h, Ok pts).
Proof.
  intros Hr Hs Hf. destruct fuel as [|f]; [lia|]. cbn. by rewrite Hr, Hs.
Qed.

Lemma get_points_body_frame (shapes : loc -> option (list R * list R))
    (h : list object) (root l : loc) pts (fuel : nat) :
  wf h -> in_chain h root l -> shapes root = Some pts -> (2 <= fuel)%nat ->
  get_points shapes fuel h l true = Some (h, Ok pts).
Proof.
  intros W C Hs Hf.
  pose proof (in_chain_get_body h root l W C) as Hb.
  destruct (in_chain_root_Body h root l C) as [t Ht].
  destruct fuel as [|f]; [lia|]. unfold get_body in Hb. cbn.
  destruct (h !! l) as [[t'|p b tr cls]|] eqn:H; try done.
  - injection Hb as ->. by rewrite Hs.
  - injection Hb as ->.
    rewrite (get_points_root shapes h root t pts f false Ht Hs) by lia.
    cbn. by destruct pts.
Qed.

(** X14: [get_points(body_frame=True)] on any member of a chain returns
    the root body's own points and changes nothing in the store; so the
    panels of a decorated body are the panels of the root body, whatever
    the angles, displacements and time of the chain. *)
Theorem body_frame_points (shapes : loc -> option (list R * list R))
    (h : list object) (root l : loc) (x y : list R) (fuel : nat) :
  reachable h -> in_chain h root l -> shapes root = Some (x, y) ->
  (2 <= fuel)%nat ->
  get_points shapes fuel h l true = Some (h, Ok (x, y))
  /\ BoundVortexPanels_init shapes fuel h l = Some (h, BVP.init x y)
  /\ BoundVortexPanels_init shapes fuel h l
     = BoundVortexPanels_init shapes fuel h root.
Proof.
  intros Hr C Hs Hf. pose proof (reachable_wf h Hr) as W.
  pose proof (get_points_body_frame shapes h root l (x, y) fuel W C Hs Hf)
    as G.
  destruct (in_chain_root_Body h root l C) as [t Ht].
  pose proof (get_points_root shapes h root t (x, y) fuel true Ht Hs
                ltac:(lia)) as G0.
  unfold BoundVortexPanels_init. rewrite G, G0. done.
Qed.

Lemma body_frame_points_witness :
  get_points example_shapes 2 example_chain 3 true
    = Some (example_chain, Ok ([0; 1; 2], [0; 0; 0]))
  /\ BoundVortexPanels_init example_shapes 2 example_chain 3
     = Some (example_chain, BVP.init [0; 1; 2] [0; 0; 0])
  /\ BoundVortexPanels_init example_shapes 2 example_chain 3
     = BoundVortexPanels_init example_shapes 2 example_chain 0.
Proof.
  apply (body_frame_points example_shapes example_chain 0 3
           [0; 1; 2] [0; 0; 0] 2).
  - exact example_chain_reachable.
  - apply example_chain_members. lia.
  - reflexivity.
  - lia.
Defined.

Lemma get_transformation_decorator (fuel : nat) (h : list object)
    (l p b : loc) tr cls h' r :
  h !! l = Some (TransformedBody p b tr cls) ->
  get_transformation fuel h l = Some (h', r) -> exists T, r = Some T.
Proof.
  intros H. destruct fuel as [|f]; [done|]. cbn. rewrite H.
  intros G. apply bind_Some in G as (h1 & _ & G).
  apply bind_Some in G as ([h2 other] & _ & G).
  apply bind_Some in G as (tr' & _ & [= <- <-]). eauto.
Qed.

(** X15: [get_points()] on a decorator returns the root body's points
    mapped by [v -> R v + d], with [R] and [d] the rotation matrix and
    displacement of the transformation [get_transformation] returns, and
    leaves the store as that call leaves it; the number of points is
    unchanged. *)
Theorem inertial_frame_points (shapes : loc -> option (list R * list R))
    (h : list object) (root l p b : loc) tr cls (x y : list R)
    (fuel : nat) :
  reachable h -> in_chain h root l ->
  h !! l = Some (TransformedBody p b tr cls) ->
  shapes root = Some (x, y) -> length x = length y ->
  (l + 2 <= fuel)%nat ->
  exists h' T,
    get_transformation fuel h l = Some (h', Some T)
    /\ get_points shapes (S fuel) h l false
       = Some (h', Ok (fst <$> (rigid T <$> zip x y),
                       snd <$> (rigid T <$> zip x y)))
    /\ length (fst <$> (rigid T <$> zip x y)) = length x
    /\ length (snd <$> (rigid T <$> zip x y)) = length x.
Proof.
  intros Hr C H Hs Hlen Hf. pose proof (reachable_wf h Hr) as W.
  pose proof (in_chain_get_body h root l W C) as Hb.
  destruct (in_chain_root_Body h root l C) as [t Ht].
  assert (b = root) as ->.
  { unfold get_body in Hb. rewrite H in Hb. congruence. }
  assert (Hl : (l < length h)%nat) by (by eapply lookup_lt_Some).
  destruct (get_transformation_total fuel h l W Hl Hf) as (h' & r & G).
  destruct (get_transformation_decorator _ _ _ _ _ _ _ _ _ H G) as [T ->].
  pose proof (reachable_all_consistent h Hr) as Hall.
  destruct (all_consistent_get_transformation _ _ _ _ _ Hall G) as [_ HT].
  specialize (HT T eq_refl).
  exists h', T. split; [done|]. split.
  - cbn [get_points]. rewrite H.
    rewrite (get_points_root shapes h root t (x, y) fuel false Ht Hs)
      by lia.
    cbn. rewrite G. cbn. unfold vstack.
    rewrite (proj2 (Nat.eqb_eq _ _) Hlen). cbn [fst snd].
    by rewrite xform_columns.
  - rewrite !length_fmap, length_zip_with. lia.
Qed.

Lemma inertial_frame_points_witness :
  exists h' T,
    get_transformation 5 example_chain 3 = Some (h', Some T)
    /\ get_points example_shapes 6 example_chain 3 false
       = Some (h', Ok (fst <$> (rigid T <$> zip [0; 1; 2] [0; 0; 0]),
                       snd <$> (rigid T <$> zip [0; 1; 2] [0; 0; 0])))
    /\ length (fst <$> (rigid T <$> zip [0; 1; 2] [0; 0; 0])) = 3%nat
    /\ length (snd <$> (rigid T <$> zip [0; 1; 2] [0; 0; 0])) = 3%nat.
Proof.
  apply (inertial_frame_points example_shapes example_chain 0 3 2 0
           (ET.init 10 (-0.25, 0)) Plain [0; 1; 2] [0; 0; 0] 5).
  - exact example_chain_reachable.
  - apply example_chain_members. lia.
  - reflexivity.
  - reflexivity.
  - reflexivity.
  - lia.
Defined.

(** ** Circle *)

Lemma circle_lookup (r : R) (N i : nat) :
  (i < N)%nat ->
  exists a, a = theta N i
    /\ Circle._x (Circle.init r N) !! i = Some (r * cos a)
    /\ Circle._y (Circle.init r N) !! i = Some (r * sin a).
Proof.
  intros Hi. unfold Circle.init. cbn [Circle._x Circle._y].
  rewrite !list_lookup_fmap.
  destruct (lookup_linspace 0 (2 * PI) N i Hi) as (v & -> & Hv).
  exists v. by split.
Qed.

Lemma circle_lookup_theta (r : R) (N i : nat) :
  (i < N)%nat ->
  Circle._x (Circle.init r N) !! i = Some (r * cos (theta N i))
  /\ Circle._y (Circle.init r N) !! i = Some (r * sin (theta N i)).
Proof.
  intros Hi. by destruct (circle_lookup r N i Hi) as (a & -> & Hx & Hy).
Qed.

Lemma circle_length (r : R) (N : nat) :
  length (Circle._x (Circle.init r N)) = N
  /\ length (Circle._y (Circle.init r N)) = N.
Proof.
  unfold Circle.init. cbn. by rewrite !length_fmap, length_linspace.
Qed.

Lemma theta_first (N : nat) : theta N 0 = 0.
Proof. unfold theta. apply linspace_first. Qed.

Lemma theta_last (N : nat) : (2 <= N)%nat -> theta N (N - 1) = 2 * PI.
Proof. intros HN. unfold theta. by apply linspace_last. Qed.

Lemma theta_step (N i : nat) :
  theta N (S i) - theta N i = 2 * PI / INR (N - 1).
Proof. unfold theta. rewrite S_INR. unfold Rdiv. ring. Qed.

(** X16: [Circle(radius, N)] has [N] points, all at distance [|radius|]
    from the origin; it starts at [(radius, 0)], and for [N >= 2] its last
    point is its first one (the contour is closed by a repeated point). *)
Theorem circle_points (r : R) (N : nat) :
  let C := Circle.init r N in
  length (Circle._x C) = N
  /\ length (Circle._y C) = N
  /\ (forall i xi yi,
        Circle._x C !! i = Some xi -> Circle._y C !! i = Some yi ->
        xi * xi + yi * yi = r * r)
  /\ (forall x0 y0,
        Circle._x C !! 0%nat = Some x0 -> Circle._y C !! 0%nat = Some y0 ->
        x0 = r /\ y0 = 0)
  /\ ((2 <= N)%nat ->
      Circle._x C !! (N - 1)%nat = Circle._x C !! 0%nat
      /\ Circle._y C !! (N - 1)%nat = Circle._y C !! 0%nat).
Proof.
  cbn zeta. split; [apply circle_length|]. split; [apply circle_length|].
  split; [|split].
  - intros i xi yi Hx Hy.
    assert (Hi : (i < N)%nat).
    { apply lookup_lt_Some in Hx. by rewrite (proj1 (circle_length r N)) in Hx. }
    destruct (circle_lookup_theta r N i Hi) as [Hx' Hy'].
    assert (xi = r * cos (theta N i)) as -> by congruence.
    assert (yi = r * sin (theta N i)) as -> by congruence.
    pose proof (sin2_cos2 (theta N i)) as H. unfold Rsqr in H.
    transitivity (r * r * (sin (theta N i) * sin (theta N i)
                           + cos (theta N i) * cos (theta N i))); [ring|].
    rewrite H. ring.
  - intros x0 y0 Hx Hy.
    assert (Hi : (0 < N)%nat).
    { apply lookup_lt_Some in Hx. by rewrite (proj1 (circle_length r N)) in Hx. }
    destruct (circle_lookup_theta r N 0 Hi) as [Hx' Hy'].
    rewrite theta_first, cos_0 in Hx'. rewrite theta_first, sin_0 in Hy'.
    split; [assert (x0 = r * 1) by congruence|
            assert (y0 = r * 0) by congruence]; lra.
  - intros HN.
    destruct (circle_lookup_theta r N 0 ltac:(lia)) as [Hx0 Hy0].
    destruct (circle_lookup_theta r N (N - 1) ltac:(lia)) as [Hx1 Hy1].
    rewrite Hx0, Hy0, Hx1, Hy1.
    rewrite theta_first, theta_last, cos_0, sin_0, cos_2PI, sin_2PI by done.
    done.
Qed.

Lemma BVP_numpanels (x y : list R) (P : BVP.t) :
  BVP.init x y = Ok P -> BVP._numpanels P = (length x - 1)%nat.
Proof.
  unfold BVP.init, vstack. destruct (length x =? length y)%nat; [|done].
  intros [= <-]. cbn. apply length_diff.
Qed.

(** The normal of a panel of non-zero length, explicitly. *)
Lemma normal_finite (x y : list R) (i : nat) (a b : vec2) (P : BVP.t) :
  BVP.init x y = Ok P ->
  x !! i = Some (fst a) -> y !! i = Some (snd a) ->
  x !! S i = Some (fst b) -> y !! S i = Some (snd b) ->
  (fst b - fst a <> 0 \/ snd b - snd a <> 0) ->
  let n := norm2 (fst b - fst a) (snd b - snd a) in
  0 < n
  /\ n * n = (fst b - fst a) * (fst b - fst a)
             + (snd b - snd a) * (snd b - snd a)
  /\ BVP.normal P i
     = Some (Finite ((snd b - snd a) / n), Finite (- (fst b - fst a) / n)).
Proof.
  intros HP Hx0 Hy0 Hx1 Hy1 Hne n.
  pose proof (norm2_pos _ _ Hne) as Hn. fold n in Hn.
  split; [done|]. split.
  - unfold n, norm2. apply sqrt_sqrt.
    pose proof (Rle_0_sqr (fst b - fst a)) as H1.
    pose proof (Rle_0_sqr (snd b - snd a)) as H2.
    unfold Rsqr in H1, H2. lra.
  - rewrite (normal_column x y i a b P HP Hx0 Hy0 Hx1 Hy1). fold n.
    by rewrite !np_divide_finite by lra.
Qed.

Lemma chord_nonzero (r a b : R) :
  r <> 0 -> cos (b - a) < 1 ->
  r * cos b - r * cos a <> 0 \/ r * sin b - r * sin a <> 0.
Proof.
  intros Hr Hc.
  destruct (Req_dec (r * cos b - r * cos a) 0) as [Ex|]; [|by left].
  destruct (Req_dec (r * sin b - r * sin a) 0) as [Ey|]; [|by right].
  exfalso.
  assert (cos b = cos a).
  { apply (Rmult_eq_reg_l r); [lra|done]. }
  assert (sin b = sin a).
  { apply (Rmult_eq_reg_l r); [lra|done]. }
  rewrite cos_minus in Hc.
  pose proof (sin2_cos2 a) as H1. unfold Rsqr in H1. nra.
Qed.

(** X17: the panels of [Circle(radius, N)] with a non-zero radius and
    [N >= 3] points: none is degenerate, every normal is a finite unit
    vector, and from 4 points on every normal points away from the centre
    (its scalar product with the panel's first end point is positive). *)
Theorem circle_panels (r : R) (N i : nat) :
  r <> 0 -> (3 <= N)%nat -> (i < N - 1)%nat ->
  let C := Circle.init r N in
  exists P nx ny,
    BVP.init (Circle._x C) (Circle._y C) = Ok P
    /\ BVP._numpanels P = (N - 1)%nat
    /\ BVP.normal P i = Some (Finite nx, Finite ny)
    /\ nx * nx + ny * ny = 1
    /\ ((4 <= N)%nat ->
        0 < nx * (r * cos (theta N i)) + ny * (r * sin (theta N i))).
Proof.
  intros Hr HN Hi C.
  destruct (BVP_init_Ok (Circle._x C) (Circle._y C)) as [P HP].
  { unfold C. destruct (circle_length r N) as [-> ->]. done. }
  destruct (circle_lookup_theta r N i ltac:(lia)) as [Hx0 Hy0].
  destruct (circle_lookup_theta r N (S i) ltac:(lia)) as [Hx1 Hy1].
  set (a := theta N i) in *. set (b := theta N (S i)) in *.
  assert (Hstep : b - a = 2 * PI / INR (N - 1)) by apply theta_step.
  pose proof PI_RGT_0 as Hpi.
  assert (HN1 : 2 <= INR (N - 1)).
  { change 2 with (INR 2). apply le_INR. lia. }
  assert (Hd : 0 < b - a <= PI).
  { rewrite Hstep. split.
    - apply Rdiv_lt_0_compat; lra.
    - apply (Rmult_le_reg_r (INR (N - 1))); [lra|].
      unfold Rdiv. rewrite Rmult_assoc, Rinv_l by lra. nra. }
  assert (Hcos : cos (b - a) < 1).
  { rewrite <- cos_0. apply cos_decreasing_1; lra. }
  pose proof (chord_nonzero r a b Hr Hcos) as Hne.
  destruct (normal_finite (Circle._x C) (Circle._y C) i
              (r * cos a, r * sin a) (r * cos b, r * sin b) P
              HP Hx0 Hy0 Hx1 Hy1 Hne) as (Hn & Hsq & Hnormal).
  cbn [fst snd] in *.
  set (n := norm2 (r * cos b - r * cos a) (r * sin b - r * sin a)) in *.
  exists P, ((r * sin b - r * sin a) / n), (- (r * cos b - r * cos a) / n).
  split; [done|]. split.
  { rewrite (BVP_numpanels _ _ _ HP). unfold C.
    by rewrite (proj1 (circle_length r N)). }
  split; [done|]. split.
  - field_simplify_eq; [|lra].
    replace (n ^ 2) with (n * n) by ring. rewrite Hsq. ring.
  - intros HN4.
    assert (HN3 : 3 <= INR (N - 1)).
    { pose proof (le_INR 3 (N - 1) ltac:(lia)) as H3.
      replace (INR 3) with 3 in H3 by (cbn; lra). done. }
    assert (Hlt : b - a < PI).
    { rewrite Hstep. apply (Rmult_lt_reg_r (INR (N - 1))); [lra|].
      unfold Rdiv. rewrite Rmult_assoc, Rinv_l by lra. nra. }
    pose proof (sin_gt_0 (b - a) ltac:(lra) Hlt) as Hs.
    rewrite sin_minus in Hs.
    replace ((r * sin b - r * sin a) / n * (r * cos a)
             + - (r * cos b - r * cos a) / n * (r * sin a))
      with (r * r * (sin b * cos a - cos b * sin a) / n)
      by (field; lra).
    apply Rdiv_lt_0_compat; [|done].
    apply Rmult_lt_0_compat; [nra|done].
Qed.

Lemma circle_panels_witness :
  exists P nx ny,
    BVP.init (Circle._x (Circle.init 1 5)) (Circle._y (Circle.init 1 5))
      = Ok P
    /\ BVP._numpanels P = 4%nat
    /\ BVP.normal P 0 = Some (Finite nx, Finite ny)
    /\ nx * nx + ny * ny = 1
    /\ ((4 <= 5)%nat ->
        0 < nx * (1 * cos (theta 5 0)) + ny * (1 * sin (theta 5 0))).
Proof.
  apply (circle_panels 1 5 0); [lra|lia|lia].
Defined.


(** ** Airfoil: which codes are accepted *)

Lemma length_decimal_below_1000 (n : Z) :
  (0 <= n < 1000)%Z -> (String.length (decimal n) <= 3)%nat.
Proof.
  intros Hn. unfold decimal.
  etrans; [apply (digits_aux_length_le 2)|cbn; lia]. lia.
Qed.

Lemma length_decimal_from_1000 (n : Z) :
  (1000 <= n)%Z -> (4 <= String.length (decimal n))%nat.
Proof.
  intros Hn. unfold decimal.
  etrans; [|apply (digits_aux_length_ge 3)]; [cbn; lia| |lia].
  change (10 ^ Z.of_nat 3)%Z with 1000%Z. done.
Qed.

(** X19: the constructor returns an airfoil exactly for the codes 0 to
    9999.  A negative code above -1000 renders as 4 characters, passes the
    length check and fails with the error of [int("-")], when its first
    character, the sign, is parsed as a digit; a code from -1000 down fails
    the length check. *)
Theorem airfoil_code_range (code : Z) (N : nat) (zt uni : bool) :
  ((exists A, Airfoil.init code N zt uni = Ok A) <-> (0 <= code < 10000)%Z)
  /\ ((-1000 < code < 0)%Z ->
      String.length (format_04d code) = 4%nat
      /\ exists e, py_int "-" = Raise e
                   /\ Airfoil.init code N zt uni = Raise e)
  /\ ((code <= -1000)%Z ->
      Airfoil.init code N zt uni
      = Raise (ValueError "NACA designation is more than 4 digits")).
Proof.
  split; [|split].
  - split.
    + intros [A HA]. by eapply init_Ok_range.
    + intros Hc. eexists. by apply init_decodes.
  - intros Hc.
    pose proof (length_decimal_below_1000 (- code) ltac:(lia)) as Hd.
    assert (Hlen : String.length (format_04d code) = 4%nat).
    { unfold format_04d. rewrite (proj2 (Z.ltb_lt code 0)) by lia.
      cbn [String.length]. rewrite length_zeros. lia. }
    split; [done|]. eexists. split; [reflexivity|].
    unfold Airfoil.init. rewrite Hlen. cbn [Nat.eqb negb].
    unfold format_04d. rewrite (proj2 (Z.ltb_lt code 0)) by lia.
    cbn [substring]. set (z := zeros _ _).
    assert (substring 0 0 z = EmptyString) as -> by (by destruct z).
    reflexivity.
  - intros Hc. unfold Airfoil.init, format_04d.
    rewrite (proj2 (Z.ltb_lt code 0)) by lia.
    pose proof (length_decimal_from_1000 (- code) ltac:(lia)) as Hd.
    cbn [String.length]. rewrite length_zeros.
    destruct (Nat.eqb_spec
                (S (3 - String.length (decimal (- code))
                    + String.length (decimal (- code)))) 4); [lia|done].
Qed.

(** ** Airfoil: shape of the contour *)

Lemma geometry_x_at (mc p th : R) (N : nat) (zt uni : bool) (k : nat) :
  (k < 2 * N - 1)%nat ->
  Airfoil._x (Airfoil.geometry mc p th N zt uni) !! k
  = Some (station uni N (if (k <? N - 1)%nat then N - 1 - k
                         else k - (N - 1)))
  /\ Airfoil._y (Airfoil.geometry mc p th N zt uni) !! k
     = Some (let xs := station uni N (if (k <? N - 1)%nat then N - 1 - k
                                      else k - (N - 1)) in
             if (k <? N - 1)%nat
             then Airfoil.y_camber mc p xs + Airfoil.y_thick th zt xs
             else Airfoil.y_camber mc p xs - Airfoil.y_thick th zt xs).
Proof.
  intros Hk. destruct (Nat.ltb_spec k (N - 1)) as [Hlt|Hge].
  - apply geometry_upper; [done|]. apply stations_lookup_lt. lia.
  - replace k with (N - 1 + (k - (N - 1)))%nat at 1 3 by lia.
    apply geometry_lower. apply stations_lookup_lt. lia.
Qed.

Lemma y_thick_leading_edge (th : R) (zt : bool) : Airfoil.y_thick th zt 0 = 0.
Proof.
  unfold Airfoil.y_thick, Airfoil.coefs, polyval.
  cbn [take firstn nth fold_left]. rewrite sqrt_0. ring.
Qed.

Lemma y_camber_leading_edge (mc p : R) :
  0 <= p -> Airfoil.y_camber mc p 0 = 0.
Proof.
  intros Hp. unfold Airfoil.y_camber.
  destruct (Req_dec_T p 0); [done|].
  destruct (Rle_dec 0 p); [|lra]. unfold Rdiv. ring.
Qed.

Lemma y_camber_trailing_edge (mc p : R) :
  p < 1 -> Airfoil.y_camber mc p 1 = 0.
Proof.
  intros Hp. unfold Airfoil.y_camber.
  destruct (Req_dec_T p 0); [done|].
  destruct (Rle_dec 1 p); [lra|]. unfold Rdiv. ring.
Qed.

Lemma p_range (code : Z) :
  0 <= 0.1 * IZR (code / 100 mod 10) < 1.
Proof.
  pose proof (Z.mod_pos_bound (code / 100) 10 ltac:(lia)) as [H0 H1].
  apply IZR_le in H0. assert (H2 : (code / 100 mod 10 <= 9)%Z) by lia.
  apply IZR_le in H2. lra.
Qed.

(** X20: whatever the code, the leading-edge point of the contour is the
    origin, and the contour starts at [(1, te)] and ends at [(1, -te)]
    with [te = 0.0105 * thickness], or [te = 0] when [zero_thick_te] is
    set: only then is the contour closed. *)
Theorem airfoil_end_points (code : Z) (N : nat) (zt uni : bool) :
  (0 <= code < 10000)%Z -> (2 <= N)%nat ->
  let te := if zt then 0 else 0.0105 * (0.01 * IZR (code mod 100)) in
  exists A,
    Airfoil.init code N zt uni = Ok A
    /\ Airfoil._x A !! (N - 1)%nat = Some 0
    /\ Airfoil._y A !! (N - 1)%nat = Some 0
    /\ Airfoil._x A !! 0%nat = Some 1
    /\ Airfoil._y A !! 0%nat = Some te
    /\ Airfoil._x A !! (2 * N - 2)%nat = Some 1
    /\ Airfoil._y A !! (2 * N - 2)%nat = Some (- te).
Proof.
  intros Hc HN te. eexists. split; [by apply init_decodes|].
  set (mc := 0.01 * IZR (code / 1000)).
  set (p := 0.1 * IZR (code / 100 mod 10)).
  set (th := 0.01 * IZR (code mod 100)).
  pose proof (p_range code) as Hp. fold p in Hp.
  destruct (geometry_x_at mc p th N zt uni (N - 1) ltac:(lia)) as [Lx Ly].
  destruct (geometry_x_at mc p th N zt uni 0 ltac:(lia)) as [Ux Uy].
  destruct (geometry_x_at mc p th N zt uni (2 * N - 2) ltac:(lia))
    as [Tx Ty].
  rewrite (proj2 (Nat.ltb_ge (N - 1) (N - 1))) in Lx, Ly by lia.
  rewrite (proj2 (Nat.ltb_ge (2 * N - 2) (N - 1))) in Tx, Ty by lia.
  rewrite (proj2 (Nat.ltb_lt 0 (N - 1))) in Ux, Uy by lia.
  rewrite Nat.sub_diag, station_first in Lx, Ly.
  rewrite Nat.sub_0_r, station_last in Ux, Uy by lia.
  replace (2 * N - 2 - (N - 1))%nat with (N - 1)%nat in Tx, Ty by lia.
  rewrite station_last in Tx, Ty by lia.
  cbn zeta in Ly, Uy, Ty.
  rewrite y_camber_leading_edge, y_thick_leading_edge in Ly by lra.
  rewrite y_camber_trailing_edge, y_thick_trailing_edge in Uy, Ty by lra.
  fold th te in Uy, Ty.
  repeat split; try done.
  - rewrite Ly. apply f_equal. lra.
  - rewrite Uy. apply f_equal. unfold te, th. destruct zt; lra.
  - rewrite Ty. apply f_equal. unfold te, th. destruct zt; lra.
Qed.

Lemma airfoil_end_points_witness :
  exists A,
    Airfoil.init 2412 20 false false = Ok A
    /\ Airfoil._x A !! 19%nat = Some 0
    /\ Airfoil._y A !! 19%nat = Some 0
    /\ Airfoil._x A !! 0%nat = Some 1
    /\ Airfoil._y A !! 0%nat = Some (0.0105 * (0.01 * 12))
    /\ Airfoil._x A !! 38%nat = Some 1
    /\ Airfoil._y A !! 38%nat = Some (- (0.0105 * (0.01 * 12))).
Proof.
  apply (airfoil_end_points 2412 20 false false); lia.
Defined.

(** X21: when the second digit of the code is 0 the camber is ignored,
    whatever the first digit: the contour is symmetric about the chord
    line, the upper-surface point at a station being the mirror image of
    the lower-surface point at the same station. *)
Theorem airfoil_symmetric (code : Z) (N : nat) (zt uni : bool) (j : nat) :
  (0 <= code < 10000)%Z -> (code / 100 mod 10 = 0)%Z ->
  (1 <= j)%nat -> (j < N)%nat ->
  exists A xj yj,
    Airfoil.init code N zt uni = Ok A
    /\ Airfoil._x A !! (N - 1 - j)%nat = Some xj
    /\ Airfoil._y A !! (N - 1 - j)%nat = Some yj
    /\ Airfoil._x A !! (N - 1 + j)%nat = Some xj
    /\ Airfoil._y A !! (N - 1 + j)%nat = Some (- yj).
Proof.
  intros Hc Hp Hj1 HjN. eexists. eexists. eexists.
  split; [by apply init_decodes|].
  set (mc := 0.01 * IZR (code / 1000)).
  set (th := 0.01 * IZR (code mod 100)).
  rewrite Hp.
  destruct (geometry_x_at mc (0.1 * 0) th N zt uni (N - 1 - j) ltac:(lia))
    as [Ux Uy].
  destruct (geometry_x_at mc (0.1 * 0) th N zt uni (N - 1 + j) ltac:(lia))
    as [Lx Ly].
  rewrite (proj2 (Nat.ltb_lt (N - 1 - j) (N - 1))) in Ux, Uy by lia.
  rewrite (proj2 (Nat.ltb_ge (N - 1 + j) (N - 1))) in Lx, Ly by lia.
  replace (N - 1 - (N - 1 - j))%nat with j in Ux, Uy by lia.
  replace (N - 1 + j - (N - 1))%nat with j in Lx, Ly by lia.
  cbn zeta in Uy, Ly.
  split; [exact Ux|]. split; [exact Uy|]. split; [exact Lx|].
  rewrite Ly. apply f_equal. unfold Airfoil.y_camber.
  subst th.
  destruct (Req_dec_T (0.1 * 0) 0) as [_|Hne]; [lra|].
  exfalso. apply Hne. lra.
Qed.

Lemma airfoil_symmetric_witness :
  exists A xj yj,
    Airfoil.init 2012 50 false false = Ok A
    /\ Airfoil._x A !! (50 - 1 - 7)%nat = Some xj
    /\ Airfoil._y A !! (50 - 1 - 7)%nat = Some yj
    /\ Airfoil._x A !! (50 - 1 + 7)%nat = Some xj
    /\ Airfoil._y A !! (50 - 1 + 7)%nat = Some (- yj).
Proof.
  apply (airfoil_symmetric 2012 50 false false 7); (lia || reflexivity).
Defined.

(** ** Airfoil: the camber line *)

(** X22: for a camber position [0 < p < 1], the camber line is 0 at both
    ends of the chord, its two formulas agree at [x = p], where its value
    is [max_camber], and (for a non-negative [max_camber]) it never exceeds
    [max_camber] anywhere. *)
Theorem camber_line (max_camber p : R) :
  0 <= max_camber -> 0 < p < 1 ->
  Airfoil.y_camber max_camber p 0 = 0
  /\ Airfoil.y_camber max_camber p 1 = 0
  /\ Airfoil.y_camber max_camber p p = max_camber
  /\ max_camber * ((1 - p) / (1 - p) ^ 2 * (1 + p - 2 * p)) = max_camber
  /\ forall x, Airfoil.y_camber max_camber p x <= max_camber.
Proof.
  intros Hm Hp. split; [apply y_camber_leading_edge; lra|].
  split; [apply y_camber_trailing_edge; lra|].
  split; [|split].
  - unfold Airfoil.y_camber.
    destruct (Req_dec_T p 0); [lra|].
    destruct (Rle_dec p p); [|lra]. field. lra.
  - field. lra.
  - intros x. unfold Airfoil.y_camber.
    destruct (Req_dec_T p 0); [lra|].
    assert (Hsq : 0 <= (x - p) * (x - p)).
    { pose proof (Rle_0_sqr (x - p)) as H. by unfold Rsqr in H. }
    destruct (Rle_dec x p).
    + replace (max_camber * x / p ^ 2 * (2 * p - x))
        with (max_camber * (1 - (x - p) * (x - p) / (p * p)))
        by (field; lra).
      assert (0 <= (x - p) * (x - p) / (p * p)).
      { apply Rmult_le_pos; [done|].
        apply Rlt_le, Rinv_0_lt_compat. nra. }
      nra.
    + replace (max_camber * ((1 - x) / (1 - p) ^ 2 * (1 + x - 2 * p)))
        with (max_camber
              * (1 - (x - p) * (x - p) / ((1 - p) * (1 - p))))
        by (field; lra).
      assert (0 <= (x - p) * (x - p) / ((1 - p) * (1 - p))).
      { apply Rmult_le_pos; [done|].
        apply Rlt_le, Rinv_0_lt_compat. nra. }
      nra.
Qed.

Lemma camber_line_witness :
  Airfoil.y_camber 0.02 0.4 0 = 0
  /\ Airfoil.y_camber 0.02 0.4 1 = 0
  /\ Airfoil.y_camber 0.02 0.4 0.4 = 0.02
  /\ 0.02 * ((1 - 0.4) / (1 - 0.4) ^ 2 * (1 + 0.4 - 2 * 0.4)) = 0.02
  /\ forall x, Airfoil.y_camber 0.02 0.4 x <= 0.02.
Proof. apply (camber_line 0.02 0.4); lra. Defined.

(** ** Panels: shapes and normals *)

(** X23: every array of a panel set has one column per panel, and the
    strengths start at zero. *)
Theorem panel_arrays (x y : list R) :
  length x = length y ->
  exists P,
    BVP.init x y = Ok P
    /\ length (fst (BVP._normals P)) = BVP._numpanels P
    /\ length (snd (BVP._normals P)) = BVP._numpanels P
    /\ length (fst (BVP._xvort P)) = BVP._numpanels P
    /\ length (snd (BVP._xvort P)) = BVP._numpanels P
    /\ length (fst (BVP._xcoll P)) = BVP._numpanels P
    /\ length (snd (BVP._xcoll P)) = BVP._numpanels P
    /\ (forall i, (i < BVP._numpanels P)%nat -> BVP._gam P !! i = Some 0).
Proof.
  intros E. unfold BVP.init, vstack.
  rewrite (proj2 (Nat.eqb_eq _ _) E). cbn [fst snd].
  eexists. split; [reflexivity|].
  cbn [BVP._numpanels BVP._normals BVP._xvort BVP._xcoll BVP._gam fst snd].
  assert (Hh : ((length x - 1) / 2 <= length x - 1)%nat).
  { apply Nat.Div0.div_le_upper_bound. lia. }
  rewrite !length_app, !length_take, !length_drop, !length_zip_with,
    !length_fmap, !length_add_scaled_diff, !length_diff.
  repeat split; try lia.
  intros i Hi. by apply lookup_replicate_2.
Qed.

Lemma panel_arrays_witness :
  exists P,
    BVP.init [0; 1; 2] [0; 0; 0] = Ok P
    /\ length (fst (BVP._normals P)) = BVP._numpanels P
    /\ length (snd (BVP._normals P)) = BVP._numpanels P
    /\ length (fst (BVP._xvort P)) = BVP._numpanels P
    /\ length (snd (BVP._xvort P)) = BVP._numpanels P
    /\ length (fst (BVP._xcoll P)) = BVP._numpanels P
    /\ length (snd (BVP._xcoll P)) = BVP._numpanels P
    /\ (forall i, (i < BVP._numpanels P)%nat -> BVP._gam P !! i = Some 0).
Proof. apply (panel_arrays [0; 1; 2] [0; 0; 0]). reflexivity. Defined.

(** X24: the normal of a panel of non-zero length is finite, has length
    1, is perpendicular to the panel's edge and lies to the right of the
    direction in which the contour is traversed. *)
Theorem panel_normal_unit (x y : list R) (i : nat) (a b : vec2) :
  length x = length y ->
  x !! i = Some (fst a) -> y !! i = Some (snd a) ->
  x !! S i = Some (fst b) -> y !! S i = Some (snd b) ->
  (fst b - fst a <> 0 \/ snd b - snd a <> 0) ->
  exists P nx ny,
    BVP.init x y = Ok P
    /\ BVP.normal P i = Some (Finite nx, Finite ny)
    /\ nx * nx + ny * ny = 1
    /\ nx * (fst b - fst a) + ny * (snd b - snd a) = 0
    /\ (fst b - fst a) * ny - (snd b - snd a) * nx < 0.
Proof.
  intros E Hx0 Hy0 Hx1 Hy1 Hne. destruct (BVP_init_Ok x y E) as [P HP].
  destruct (normal_finite x y i a b P HP Hx0 Hy0 Hx1 Hy1 Hne)
    as (Hn & Hsq & Hnormal).
  set (dx := fst b - fst a) in *. set (dy := snd b - snd a) in *.
  set (n := norm2 dx dy) in *.
  exists P, (dy / n), (- dx / n). split; [done|]. split; [done|].
  split; [|split].
  - field_simplify_eq; [|lra].
    replace (n ^ 2) with (n * n) by ring. rewrite Hsq. ring.
  - field. lra.
  - replace (dx * (- dx / n) - dy * (dy / n)) with (- (n * n) / n)
      by (rewrite Hsq; field; lra).
    replace (- (n * n) / n) with (- n) by (field; lra). lra.
Qed.

Lemma panel_normal_unit_witness :
  exists P nx ny,
    BVP.init [0; 1; 2] [0; 0; 0] = Ok P
    /\ BVP.normal P 0 = Some (Finite nx, Finite ny)
    /\ nx * nx + ny * ny = 1
    /\ nx * (1 - 0) + ny * (0 - 0) = 0
    /\ (1 - 0) * ny - (0 - 0) * nx < 0.
Proof.
  apply (panel_normal_unit [0; 1; 2] [0; 0; 0] 0 (0, 0) (1, 0));
    try reflexivity.
  left. cbn. lra.
Defined.

(** X25: an airfoil contour with at least 2 stations has no degenerate
    panel: [BoundVortexPanels] gives each of its [2N - 2] panels a finite
    unit normal, pointing upwards on the upper surface (the first [N - 1]
    panels) and downwards on the lower surface (the last [N - 1]). *)
Theorem airfoil_panels (code : Z) (N : nat) (zt uni : bool) (i : nat) :
  (0 <= code < 10000)%Z -> (2 <= N)%nat -> (i < 2 * N - 2)%nat ->
  exists A P nx ny,
    Airfoil.init code N zt uni = Ok A
    /\ BVP.init (Airfoil._x A) (Airfoil._y A) = Ok P
    /\ BVP._numpanels P = (2 * N - 2)%nat
    /\ BVP.normal P i = Some (Finite nx, Finite ny)
    /\ nx * nx + ny * ny = 1
    /\ ((i < N - 1)%nat -> 0 < ny)
    /\ ((N - 1 <= i)%nat -> ny < 0).
Proof.
  intros Hc HN Hi. eexists.
  set (mc := 0.01 * IZR (code / 1000)).
  set (p := 0.1 * IZR (code / 100 mod 10)).
  set (th := 0.01 * IZR (code mod 100)).
  set (G := Airfoil.geometry mc p th N zt uni).
  assert (HG : Airfoil.init code N zt uni = Ok G) by (by apply init_decodes).
  destruct (geometry_length mc p th N zt uni) as [Lx Ly]. fold G in Lx, Ly.
  destruct (BVP_init_Ok (Airfoil._x G) (Airfoil._y G)) as [P HP];
    [congruence|].
  destruct (geometry_x_at mc p th N zt uni i ltac:(lia)) as [Hx0 Hy0].
  destruct (geometry_x_at mc p th N zt uni (S i) ltac:(lia)) as [Hx1 Hy1].
  fold G in Hx0, Hy0, Hx1, Hy1.
  set (k0 := if (i <? N - 1)%nat then (N - 1 - i)%nat
             else (i - (N - 1))%nat) in *.
  set (k1 := if (S i <? N - 1)%nat then (N - 1 - S i)%nat
             else (S i - (N - 1))%nat) in *.
  cbn zeta in Hy0, Hy1.
  set (y0 := if (i <? N - 1)%nat then _ else _) in Hy0.
  set (y1 := if (S i <? N - 1)%nat then _ else _) in Hy1.
  assert (Hk0 : (k0 < N)%nat).
  { unfold k0. destruct (Nat.ltb_spec i (N - 1)); lia. }
  assert (Hk1 : (k1 < N)%nat).
  { unfold k1. destruct (Nat.ltb_spec (S i) (N - 1)); lia. }
  assert (Hdx : ((i < N - 1)%nat /\ station uni N k1 < station uni N k0)
                \/ ((N - 1 <= i)%nat
                    /\ station uni N k0 < station uni N k1)).
  { destruct (decide (i < N - 1)%nat) as [Hlt|Hge].
    - left. split; [done|]. apply station_mono; [|done].
      unfold k0, k1.
      repeat (match goal with
              | |- context [(?u <? ?v)%nat] => destruct (Nat.ltb_spec u v)
              end); lia.
    - right. split; [lia|]. apply station_mono; [|done].
      unfold k0, k1.
      repeat (match goal with
              | |- context [(?u <? ?v)%nat] => destruct (Nat.ltb_spec u v)
              end); lia. }
  destruct (normal_finite (Airfoil._x G) (Airfoil._y G) i
              (station uni N k0, y0) (station uni N k1, y1) P
              HP Hx0 Hy0 Hx1 Hy1) as (Hn & Hsq & Hnormal).
  { left. cbn. destruct Hdx as [[_ H]|[_ H]]; lra. }
  cbn [fst snd] in *.
  set (dx := station uni N k1 - station uni N k0) in *.
  set (dy := y1 - y0) in *. set (n := norm2 dx dy) in *.
  exists P, (dy / n), (- dx / n).
  split; [exact HG|]. split; [done|]. split.
  { rewrite (BVP_numpanels _ _ _ HP), Lx. lia. }
  split; [done|]. split; [|split].
  - field_simplify_eq; [|lra].
    replace (n ^ 2) with (n * n) by ring. rewrite Hsq. ring.
  - intros Hlt. destruct Hdx as [[_ H]|[H _]]; [|lia].
    apply Rdiv_lt_0_compat; [unfold dx; lra|done].
  - intros Hge. destruct Hdx as [[H _]|[_ H]]; [lia|].
    assert (0 < dx / n) by (apply Rdiv_lt_0_compat; [unfold dx; lra|done]).
    replace (- dx / n) with (- (dx / n)) by (field; lra). lra.
Qed.

Lemma airfoil_panels_witness :
  exists A P nx ny,
    Airfoil.init 2412 20 false false = Ok A
    /\ BVP.init (Airfoil._x A) (Airfoil._y A) = Ok P
    /\ BVP._numpanels P = 38%nat
    /\ BVP.normal P 5 = Some (Finite nx, Finite ny)
    /\ nx * nx + ny * ny = 1
    /\ ((5 < 20 - 1)%nat -> 0 < ny)
    /\ ((20 - 1 <= 5)%nat -> ny < 0).
Proof. apply (airfoil_panels 2412 20 false false 5); lia. Defined.

(** ** Nested decorators *)

(** X26: the transformation of
    [TransformedBody(TransformedBody(body, b, db), a, da)] over a root
    [body] is [T_outer.compose(T_inner)], the outer decorator's own
    transformation on the left; computing it changes nothing in the
    store. *)
Theorem nested_transformation (h : list object) (root : loc) (t : R)
    (a b : R) (da db : vec2) (fuel : nat) :
  h !! root = Some (Body t) -> (3 <= fuel)%nat ->
  exists h1 inner h2 outer,
    TransformedBody_init h root b db = Some (h1, inner)
    /\ TransformedBody_init h1 inner a da = Some (h2, outer)
    /\ get_transformation fuel h2 inner = Some (h2, Some (ET.init b db))
    /\ get_transformation fuel h2 outer
       = Some (h2, Some (ET.compose (ET.init a da) (Some (ET.init b db)))).
Proof.
  intros Hroot Hf.
  assert (Hlt : (root < length h)%nat) by (by eapply lookup_lt_Some).
  set (o1 := TransformedBody root root (ET.init b db) Plain).
  set (o2 := TransformedBody (length h) root (ET.init a da) Plain).
  assert (H1 : (h ++ [o1]) !! length h = Some o1)
    by (by rewrite list_lookup_middle).
  assert (D1 : TransformedBody_init h root b db
               = Some (h ++ [o1], length h)).
  { unfold TransformedBody_init, decorate, get_body. by rewrite Hroot. }
  assert (D2 : TransformedBody_init (h ++ [o1]) (length h) a da
               = Some ((h ++ [o1]) ++ [o2], S (length h))).
  { unfold TransformedBody_init, decorate, get_body, alloc.
    rewrite H1. cbn. rewrite length_app. cbn.
    by replace (length h + 1)%nat with (S (length h)) by lia. }
  set (h2 := (h ++ [o1]) ++ [o2]).
  assert (L0 : h2 !! root = Some (Body t)).
  { unfold h2. rewrite !lookup_app_l; [done|done|].
    rewrite length_app. cbn. lia. }
  assert (L1 : h2 !! length h = Some o1).
  { unfold h2. rewrite lookup_app_l; [done|]. rewrite length_app. cbn. lia. }
  assert (L2 : h2 !! S (length h) = Some o2).
  { unfold h2. rewrite lookup_app_r; rewrite length_app; cbn; [|lia].
    by replace (S (length h) - (length h + 1))%nat with 0%nat by lia. }
  assert (G1 : forall f, (2 <= f)%nat ->
            get_transformation f h2 (length h)
            = Some (h2, Some (ET.init b db))).
  { intros f Hf2. destruct f as [|[|f]]; try lia.
    cbn. rewrite L1. cbn. rewrite L0. cbn.
    unfold transformation_of. by rewrite L1. }
  exists (h ++ [o1]), (length h), h2, (S (length h)).
  split; [done|]. split; [done|]. split; [apply G1; lia|].
  destruct fuel as [|f]; [lia|].
  cbn [get_transformation]. rewrite L2. cbn -[get_transformation].
  rewrite G1 by lia. cbn. unfold transformation_of. by rewrite L2.
Qed.

Lemma nested_transformation_witness :
  exists h1 inner h2 outer,
    TransformedBody_init [Body 0] 0 10 (1, 0) = Some (h1, inner)
    /\ TransformedBody_init h1 inner 20 (0, 2) = Some (h2, outer)
    /\ get_transformation 3 h2 inner = Some (h2, Some (ET.init 10 (1, 0)))
    /\ get_transformation 3 h2 outer
       = Some (h2, Some (ET.compose (ET.init 20 (0, 2))
                           (Some (ET.init 10 (1, 0))))).
Proof.
  apply (nested_transformation [Body 0] 0 0 20 10 (0, 2) (1, 0) 3).
  - reflexivity.
  - lia.
Defined.
